(** * Software single-step for 32-bit ARM on Linux

    A shallow embedding of [pkg/proc/native/threads_linux_arm.go]:
    [restoreRegisters], [resolvePC] and [singleStep], together with the
    tracing primitives they call, and the properties of the
    execution-control layer stated about them. *)

From Stdlib Require Import ZArith Lia Strings.Byte.
From stdpp Require Import base option list gmap.

Local Open Scope Z_scope.

(** ** Machine integers

    Go's fixed-width integers are integers of [Z] with the wrap-around of
    every conversion and arithmetic operation written out.  The file is
    built for GOARCH=arm, where [uintptr] and [int] are 32 bits wide. *)

Definition uint (w x : Z) : Z := x mod 2 ^ w.
Definition sint (w x : Z) : Z := (x + 2 ^ (w - 1)) mod 2 ^ w - 2 ^ (w - 1).

Definition uint8 : Z → Z := uint 8.
Definition uint32 : Z → Z := uint 32.
Definition uint64 : Z → Z := uint 64.
Definition uintptr : Z → Z := uint 32.
Definition int64 : Z → Z := sint 64.

(** [math/bits.RotateLeft64]: [s := uint(k) & 63; x<<s | x>>(64-s)]. *)
Definition RotateLeft64 (x k : Z) : Z :=
  let s := Z.land (uint32 k) 63 in
  Z.lor (uint64 (Z.shiftl x s)) (Z.shiftr x (64 - s)).

Definition byteZ (b : byte) : Z := Z.of_N (Byte.to_N b).

(** ** Errors and results *)

(** Values of Go's [error] interface that occur here.  A variable of type
    [error] is an [option error]; [None] is [nil]. *)
Inductive error : Type :=
  | Errno (n : Z)                         (* syscall.Errno *)
  | ErrProcessExited (Pid Status : Z)     (* proc.ErrProcessExited *)
  | ErrOther (tag : Z).                   (* errors of the collaborators *)

#[global] Instance error_eq_dec : EqDecision error.
Proof. solve_decision. Defined.

Definition EIO : Z := 5.
Definition SIGTRAP : Z := 5.

(** The result of a Go call returning [(value, error)], or panicking. *)
Inductive outcome (A : Type) : Type :=
  | Ok (a : A)
  | Err (e : error)
  | Panic.
Arguments Ok {A} a.
Arguments Err {A} e.
Arguments Panic {A}.

(** How a call of a function of result type [error] ends. *)
Inductive exit : Type :=
  | Returned (err : option error)
  | Panicked
  | Blocked.                              (* the call never returns *)

(** ** The decoded instruction ([golang.org/x/arch/arm/armasm]) *)

Module armasm.

Inductive Op : Type :=
  | BL | BLX | B | BX | POP | LDR | MOV | ADD
  | OtherOp (code : Z).

Inductive AddrMode : Type :=
  | AddrPostIndex | AddrPreIndex | AddrOffset | AddrLDM | AddrLDM_WB.

Inductive Shift : Type :=
  | ShiftLeft | ShiftRight | ShiftRightSigned | RotateRight | RotateRightExt.

#[global] Instance Shift_eq_dec : EqDecision Shift.
Proof. solve_decision. Defined.

(** [armasm.Mem]; [Sign] is an int8, [Count] a uint8, [Offset] an int16,
    [Base] and [Index] are register numbers. *)
Record Mem : Type := mkMem {
  Base : Z;
  Mode : AddrMode;
  Sign : Z;
  Index : Z;
  Shift_ : Shift;
  Count : Z;
  Offset : Z
}.

(** [armasm.Arg]: [Imm] is a uint32, [Reg] a uint8, [PCRel] an int32,
    [RegList] a uint16.  [OtherArg] stands for every other operand shape
    and for the nil operand of an unused slot. *)
Inductive Arg : Type :=
  | Imm (v : Z)
  | Reg (r : Z)
  | PCRel (off : Z)
  | MemArg (m : Mem)
  | RegList (l : Z)
  | OtherArg.

(** [armasm.Inst]; [Args] is the array [[4]Arg]. *)
Record Inst : Type := mkInst {
  Op_ : Op;
  Args : Arg * Arg * Arg * Arg
}.

Definition Args0 (i : Inst) : Arg := let '(a, _, _, _) := Args i in a.
Definition Args1 (i : Inst) : Arg := let '(_, a, _, _) := Args i in a.
(** [Args[1:]] *)
Definition ArgsFrom1 (i : Inst) : list Arg := let '(_, a, b, c) := Args i in [a; b; c].

Definition SP : Z := 13.
Definition PC : Z := 15.

End armasm.

(** ** Registers, threads and the traced process *)

(** The interface [proc.Registers], with the methods used here. *)
Record Registers : Type := mkRegisters {
  PC : Z;
  Get : Z → outcome Z
}.

(** [linutil.ARMRegisters] as [restoreRegisters] sees it: the general
    registers and the floating-point block, [None] when the slice is nil. *)
Record ARMRegisters : Type := mkARMRegisters {
  Regs : list Z;
  Fpregset : option (list byte)
}.

(** [t.BinInfo().Arch] *)
Record Arch : Type := mkArch {
  MaxInstructionLength : Z;
  BreakpointInstruction : list byte
}.

(** [nativeThread]: [t.ID], [t.dbp.pid], [t.BinInfo().Arch]. *)
Record nativeThread : Type := mkThread {
  ID : Z;
  pid : Z;
  arch : Arch
}.

(** Modelled from the spec: the blocking wait primitive
    ([t.dbp.wait]) reports [(wpid, status, err)], the status a
    [*sys.WaitStatus] ([None] is nil).  [wmem] is the tracee's memory at
    that moment when the tracee changed it while it ran, or lost it by
    exiting. *)
Record WaitAnswer : Type := mkWait {
  wpid : Z;
  wstatus : option Z;
  werr : option error;
  wmem : option (gmap Z byte)
}.

(** The tracing requests issued, in order. *)
Inductive Call : Type :=
  | CGetRegs (tid : Z)
  | CSetGRegs (tid : Z) (regs : list Z)
  | CSetFpRegs (tid : Z) (block : list byte)
  | CPeek (tid addr len : Z)
  | CPoke (tid addr : Z) (data : list byte)
  | CCont (tid sig : Z)
  | CWait (tid : Z)
  | CPostExit.

(** The answers of the collaborators that are not memory accesses. *)
Record Answers : Type := mkAnswers {
  registersAnswer : outcome Registers;    (* t.Registers() *)
  setGRegsAnswer : option error;          (* ptraceSetGRegs *)
  setFpRegsAnswer : Z;                    (* errno of PTRACE_SETREGSET *)
  contAnswer : option error               (* ptraceCont *)
}.

(** The traced process and the debugger's view of it.  [memory] holds the
    mapped bytes of the tracee's address space; [events] is what the
    coming calls of [wait] report; [exited] is set by [dbp.postExit]. *)
Record World : Type := mkWorld {
  memory : gmap Z byte;
  events : list WaitAnswer;
  exited : bool;
  trace : list Call;
  answers : Answers
}.

Definition setMemory (m : gmap Z byte) (w : World) : World :=
  mkWorld m (events w) (exited w) (trace w) (answers w).
Definition setEvents (q : list WaitAnswer) (w : World) : World :=
  mkWorld (memory w) q (exited w) (trace w) (answers w).
Definition setExited (w : World) : World :=
  mkWorld (memory w) (events w) true (trace w) (answers w).
Definition record (c : Call) (w : World) : World :=
  mkWorld (memory w) (events w) (exited w) (trace w ++ [c]) (answers w).

(** ** Computations on the world *)

Definition M (A : Type) : Type := World → World * outcome A.

Definition ret {A} (a : A) : M A := λ w, (w, Ok a).
Definition fail {A} (e : error) : M A := λ w, (w, Err e).
Definition panic {A} : M A := λ w, (w, Panic).
Definition lift {A} (o : outcome A) : M A := λ w, (w, o).

Definition bind {A B} (m : M A) (k : A → M B) : M B := λ w,
  match m w with
  | (w', Ok a) => k a w'
  | (w', Err e) => (w', Err e)
  | (w', Panic) => (w', Panic)
  end.

Declare Scope go_scope.
Delimit Scope go_scope with go.
Notation "'do' x <- m ; k" := (bind m (λ x, k))
  (at level 10, x name, m at level 100, k at level 200) : go_scope.
Notation "'do_' m ; k" := (bind m (λ _, k))
  (at level 10, m at level 100, k at level 200) : go_scope.

(** ** Tracing primitives *)

(** The [n] bytes at [addr], when all of them are mapped; addresses are
    32 bits wide. *)
Fixpoint readBytesN (m : gmap Z byte) (addr : Z) (n : nat) : option (list byte) :=
  match n with
  | O => Some []
  | S n =>
      match m !! uintptr addr, readBytesN m (addr + 1) n with
      | Some b, Some bs => Some (b :: bs)
      | _, _ => None
      end
  end.

Definition readBytes (m : gmap Z byte) (addr n : Z) : option (list byte) :=
  readBytesN m addr (Z.to_nat n).

Fixpoint writeBytes (m : gmap Z byte) (addr : Z) (data : list byte) : gmap Z byte :=
  match data with
  | [] => m
  | b :: rest => writeBytes (<[uintptr addr := b]> m) (addr + 1) rest
  end.

(** Modelled from the spec: the memory peek primitive of the dispatch gate
    ([sys.PtracePeekData]) reads [n] bytes at [addr] and fails when the
    range is not readable. *)
Definition PtracePeekData (tid addr n : Z) : M (list byte) := λ w,
  let w := record (CPeek tid addr n) w in
  match readBytes (memory w) addr n with
  | Some bs => (w, Ok bs)
  | None => (w, Err (Errno EIO))
  end.

(** Modelled from the spec: the memory poke primitive of the dispatch gate
    ([sys.PtracePokeData]) overwrites the bytes at [addr] with [data], all
    or nothing, and fails when the range is not mapped. *)
Definition PtracePokeData (tid addr : Z) (data : list byte) : World → World * option error := λ w,
  let w := record (CPoke tid addr data) w in
  match readBytes (memory w) addr (Z.of_nat (length data)) with
  | Some _ => (setMemory (writeBytes (memory w) addr data) w, None)
  | None => (w, Some (Errno EIO))
  end.

(** A call returning only an [error], as a computation. *)
Definition check (f : World → World * option error) : M unit := λ w,
  match f w with
  | (w', None) => (w', Ok ())
  | (w', Some e) => (w', Err e)
  end.

(** Modelled from the spec: the resume primitive ([ptraceCont]). *)
Definition ptraceCont (tid sig : Z) : World → World * option error := λ w,
  (record (CCont tid sig) w, contAnswer (answers w)).

(** Modelled from the spec: the register read of Register Transfer
    ([t.Registers]). *)
Definition Registers_ (t : nativeThread) : M Registers := λ w,
  (record (CGetRegs (ID t)) w, registersAnswer (answers w)).

(** [make([]byte, n)] panics on a negative length. *)
Definition make (n : Z) : M unit := λ w,
  if n <? 0 then (w, Panic) else (w, Ok ()).

(** [binary.LittleEndian.Uint32] *)
Definition Uint32 (b : list byte) : outcome Z :=
  match b with
  | b0 :: b1 :: b2 :: b3 :: _ =>
      Ok (Z.lor (Z.lor (Z.lor (byteZ b0) (Z.shiftl (byteZ b1) 8))
                       (Z.shiftl (byteZ b2) 16))
                (Z.shiftl (byteZ b3) 24))
  | _ => Panic
  end.

(** ** [resolvePC] *)

Section Resolver.

(** [armasm.Decode(·, armasm.ModeARM)], the instruction decoder. *)
Variable Decode : list byte → outcome armasm.Inst.

Local Open Scope go_scope.

(** The loop over the register list of a POP: one [nextInstrLen] for
    every register below the program counter that is in the list. *)
Definition popSlot (regList nextInstrLen sp : Z) : Z :=
  foldl (λ pc i,
           if negb (Z.land regList (Z.shiftl 1 i) =? 0)
           then uint64 (pc + uint64 nextInstrLen) else pc)
        sp (seqZ 0 armasm.PC).

(** The index register of a memory operand after its shift. *)
Definition shiftIndex (arg : armasm.Mem) (idx : Z) : Z :=
  if negb (bool_decide (armasm.Shift_ arg = armasm.ShiftLeft))
     || negb (armasm.Count arg =? 0)
  then
    match armasm.Shift_ arg with
    | armasm.ShiftLeft => uint64 (Z.shiftl idx (armasm.Count arg))
    | armasm.ShiftRight | armasm.ShiftRightSigned => Z.shiftr idx (armasm.Count arg)
    | armasm.RotateRight | armasm.RotateRightExt =>
        RotateLeft64 idx (uint8 (- armasm.Count arg))
    end
  else idx.

(** The address a load into the program counter reads from. *)
Definition loadAddress (regs : Registers) (arg : armasm.Mem) : M Z :=
  do pc <- lift (Get regs (armasm.Base arg));
  match armasm.Mode arg with
  | armasm.AddrOffset | armasm.AddrPreIndex =>
      if negb (armasm.Sign arg =? 0) then
        do idx <- lift (Get regs (armasm.Index arg));
        let idx := shiftIndex arg idx in
        if armasm.Sign arg <? 0 then ret (uint64 (pc - idx))
        else ret (uint64 (pc + idx))
      else ret (uint64 (int64 pc + int64 (armasm.Offset arg)))
  | _ => ret pc
  end.

(** The sum of the source operands of a MOV or ADD. *)
Fixpoint sumArgs (regs : Registers) (args : list armasm.Arg) (pc : Z) : M Z :=
  match args with
  | [] => ret pc
  | armasm.Imm v :: rest => sumArgs regs rest (uint64 (pc + uint32 v))
  | armasm.Reg r :: rest =>
      do regVal <- lift (Get regs r);
      sumArgs regs rest (uint64 (pc + regVal))
  | _ :: rest => sumArgs regs rest pc
  end.

Definition resolvePC (t : nativeThread) (regs : Registers) : M (list Z) :=
  let nextInstrLen := MaxInstructionLength (arch t) in
  do_ make nextInstrLen;
  do nextInstrBytes <- PtracePeekData (ID t) (uintptr (PC regs)) nextInstrLen;
  let nextPcs := [uint64 (PC regs + uint64 nextInstrLen)] in
  do nextInstr <- lift (Decode nextInstrBytes);
  match armasm.Op_ nextInstr with
  | armasm.BL | armasm.BLX | armasm.B | armasm.BX =>
      match armasm.Args0 nextInstr with
      | armasm.Imm arg => ret (nextPcs ++ [uint32 arg])
      | armasm.Reg arg =>
          do pc <- lift (Get regs arg);
          ret (nextPcs ++ [pc])
      | armasm.PCRel arg => ret (nextPcs ++ [uint64 (PC regs + uint64 (sint 32 arg))])
      | _ => ret nextPcs
      end
  | armasm.POP =>
      match armasm.Args0 nextInstr with
      | armasm.RegList regList =>
          if negb (Z.land regList (Z.shiftl 1 armasm.PC) =? 0) then
            do pc <- lift (Get regs armasm.SP);
            let pc := popSlot regList nextInstrLen pc in
            do_ make nextInstrLen;
            do pcMem <- PtracePeekData (ID t) (uintptr pc) nextInstrLen;
            do target <- lift (Uint32 pcMem);
            ret (nextPcs ++ [target])
          else ret nextPcs
      | _ => ret nextPcs
      end
  | armasm.LDR =>
      match armasm.Args0 nextInstr with
      | armasm.Reg reg =>
          if reg =? armasm.PC then
            match armasm.Args1 nextInstr with
            | armasm.MemArg arg =>
                do pc <- loadAddress regs arg;
                do_ make nextInstrLen;
                do pcMem <- PtracePeekData (ID t) (uintptr pc) nextInstrLen;
                do target <- lift (Uint32 pcMem);
                ret (nextPcs ++ [target])
            | _ => ret nextPcs
            end
          else ret nextPcs
      | _ => ret nextPcs
      end
  | armasm.MOV | armasm.ADD =>
      match armasm.Args0 nextInstr with
      | armasm.Reg reg =>
          if reg =? armasm.PC then
            do pc <- sumArgs regs (armasm.ArgsFrom1 nextInstr) 0;
            ret (nextPcs ++ [pc])
          else ret nextPcs
      | _ => ret nextPcs
      end
  | armasm.OtherOp _ => ret nextPcs
  end.

End Resolver.

(** ** [restoreRegisters] *)

(** Modelled from the spec: the general-register write of the dispatch
    gate ([ptraceSetGRegs]); its result is an [error]. *)
Definition ptraceSetGRegs (tid : Z) (regs : list Z) : World → World * option error := λ w,
  (record (CSetGRegs tid regs) w, setGRegsAnswer (answers w)).

(** The raw [PTRACE_SETREGSET] request for [NT_FPREGSET]; its result is a
    [syscall.Errno], zero on success. *)
Definition ptraceSetFpRegset (tid : Z) (block : list byte) : World → World * option error := λ w,
  (record (CSetFpRegs tid block) w, Some (Errno (setFpRegsAnswer (answers w)))).

(** [savedRegs] is taken at its dynamic type [*linutil.ARMRegisters]. *)
Definition restoreRegisters (t : nativeThread) (sr : ARMRegisters) (w : World) : World * exit :=
  let '(w, restoreRegistersErr) := ptraceSetGRegs (ID t) (Regs sr) w in
  let '(w, r) :=
    if bool_decide (restoreRegistersErr ≠ Some (Errno 0)) then (w, Ok restoreRegistersErr)
    else
      match Fpregset sr with
      | None => (w, Ok restoreRegistersErr)
      | Some [] => (w, Panic)               (* &sr.Fpregset[0] *)
      | Some block =>
          let '(w, e) := ptraceSetFpRegset (ID t) block w in (w, Ok e)
      end in
  match r with
  | Ok restoreRegistersErr =>
      (w, Returned (if bool_decide (restoreRegistersErr = Some (Errno 0)) then None
                    else restoreRegistersErr))
  | _ => (w, Panicked)
  end.

(** ** [singleStep] *)

(** [sys.WaitStatus] on Linux. *)
Definition Exited (s : Z) : bool := Z.land s 127 =? 0.
Definition ExitStatus (s : Z) : Z :=
  if Exited s then Z.land (Z.shiftr s 8) 255 else -1.
Definition Stopped (s : Z) : bool := Z.land s 255 =? 127.
Definition StopSignal (s : Z) : Z :=
  if Stopped s then Z.land (Z.shiftr s 8) 255 else -1.

(** Modelled from the spec: notifying the owning process object that the
    process has exited ([dbp.postExit]). *)
Definition postExit (w : World) : World := record CPostExit (setExited w).

(** The tracee as one call of [wait] finds it. *)
Definition arrive (a : WaitAnswer) (w : World) : World :=
  match wmem a with
  | Some m => setMemory m w
  | None => w
  end.

Definition readWriteMem (t : nativeThread) (originalDatas : gmap Z (list byte))
    (addr : Z) (instr : list byte) : M (gmap Z (list byte)) :=
  (do originalData <- PtracePeekData (ID t) addr
                        (Z.of_nat (length (BreakpointInstruction (arch t))));
   do_ check (PtracePokeData (ID t) addr instr);
   ret (<[addr := originalData]> originalDatas))%go.

(** The loop planting the breakpoints: the map of saved bytes as it is
    when the loop ends, and the [err] it leaves. *)
Fixpoint plant (t : nativeThread) (nextPcs : list Z)
    (originalDatas : gmap Z (list byte)) (w : World)
    : World * (gmap Z (list byte) * outcome unit) :=
  match nextPcs with
  | [] => (w, (originalDatas, Ok ()))
  | nextPc :: rest =>
      match readWriteMem t originalDatas (uintptr nextPc)
                         (BreakpointInstruction (arch t)) w with
      | (w, Ok originalDatas) => plant t rest originalDatas w
      | (w, Err e) => (w, (originalDatas, Err e))
      | (w, Panic) => (w, (originalDatas, Panic))
      end
  end.

(** The deferred function: every saved entry is written back, and each
    write assigns its result to the named result [err].  The entries of
    the map are slices made by [make], none of them nil. *)
Fixpoint restoreOriginal (t : nativeThread) (entries : list (Z * list byte))
    (err : option error) (w : World) : World * option error :=
  match entries with
  | [] => (w, err)
  | (addr, originalData) :: rest =>
      let '(w, err) := PtracePokeData (ID t) addr originalData w in
      restoreOriginal t rest err w
  end.

(** The wait loop; [q] is what the calls of [wait] still have to report.
    When nothing is left to report, [wait] does not return. *)
Fixpoint waitLoop (t : nativeThread) (q : list WaitAnswer) (w : World) : World * exit :=
  match q with
  | [] => (setEvents [] w, Blocked)
  | a :: q =>
      let w := arrive a (record (CWait (ID t)) (setEvents q w)) in
      match werr a with
      | Some err => (w, Returned (Some err))
      | None =>
          if (match wstatus a with None => true | Some status => Exited status end)
             && (wpid a =? pid t)
          then
            let w := postExit w in
            let rs := match wstatus a with Some status => ExitStatus status | None => 0 end in
            (w, Returned (Some (ErrProcessExited (pid t) rs)))
          else if wpid a =? ID t then
            match wstatus a with
            | None => (w, Panicked)         (* status.StopSignal() on nil *)
            | Some status =>
                if StopSignal status =? SIGTRAP then (w, Returned None)
                else waitLoop t q w
            end
          else waitLoop t q w
      end
  end.

Section Step.

Variable Decode : list byte → outcome armasm.Inst.

(** The order in which [range] visits the entries of a map; Go leaves it
    unspecified. *)
Variable rangeOrder : gmap Z (list byte) → list (Z * list byte).

(** The function body after the [defer] statement. *)
Definition awaitTrap (t : nativeThread) (err : option error) (w : World) : World * exit :=
  match err with
  | Some e => (w, Returned (Some e))
  | None => waitLoop t (events w) w
  end.

(** Leaving the function once the [defer] statement has run: the
    deferred function runs on a return and on a panic, and what it
    leaves in [err] is the result. *)
Definition leave (t : nativeThread) (originalDatas : gmap Z (list byte))
    (body : World * exit) : World * exit :=
  match body with
  | (w, Returned err) =>
      let '(w, err) := restoreOriginal t (rangeOrder originalDatas) err w in
      (w, Returned err)
  | (w, Panicked) =>
      let '(w, _) := restoreOriginal t (rangeOrder originalDatas) None w in
      (w, Panicked)
  | (w, Blocked) => (w, Blocked)
  end.

Definition singleStep (t : nativeThread) (w : World) : World * exit :=
  match Registers_ t w with
  | (w, Err err) => (w, Returned (Some err))
  | (w, Panic) => (w, Panicked)
  | (w, Ok regs) =>
      match resolvePC Decode t regs w with
      | (w, Err err) => (w, Returned (Some err))
      | (w, Panic) => (w, Panicked)
      | (w, Ok nextPcs) =>
          match plant t nextPcs ∅ w with
          | (w, (_, Panic)) => (w, Panicked)
          | (w, (originalDatas, Err err)) =>
              leave t originalDatas (awaitTrap t (Some err) w)
          | (w, (originalDatas, Ok _)) =>
              let '(w, err) := ptraceCont (ID t) 0 w in
              leave t originalDatas (awaitTrap t err w)
          end
      end
  end.

End Step.

(** ** Sample inputs *)

Module Sample.

(** [binary.LittleEndian.PutUint32] *)
Definition byteOf (x : Z) : byte :=
  default x00 (Byte.of_N (Z.to_N (x mod 256))).
Definition PutUint32 (x : Z) : list byte :=
  [byteOf x; byteOf (Z.shiftr x 8); byteOf (Z.shiftr x 16); byteOf (Z.shiftr x 24)].

Definition storeWord (addr x : Z) (m : gmap Z byte) : gmap Z byte :=
  writeBytes m addr (PutUint32 x).

(** The decoder on the encodings used below. *)
Definition Decode (bs : list byte) : outcome armasm.Inst :=
  let none := armasm.OtherArg in
  match Uint32 bs with
  | Ok 0xE1A00000 =>      (* mov r0, r0 *)
      Ok (armasm.mkInst armasm.MOV (armasm.Reg 0, armasm.Reg 0, none, none))
  | Ok 0xE12FFF1E =>      (* bx lr *)
      Ok (armasm.mkInst armasm.BX (armasm.Reg 14, none, none, none))
  | Ok 0xE8BD8009 =>      (* pop {r0, r3, pc} *)
      Ok (armasm.mkInst armasm.POP (armasm.RegList 0x8009, none, none, none))
  | Ok 0xE791F0C2 =>      (* ldr pc, [r1, r2, asr #1] *)
      Ok (armasm.mkInst armasm.LDR
            (armasm.Reg 15,
             armasm.MemArg (armasm.mkMem 1 armasm.AddrOffset 1 2 armasm.ShiftRightSigned 1 0),
             none, none))
  | Ok 0xE791F0E2 =>      (* ldr pc, [r1, r2, ror #1] *)
      Ok (armasm.mkInst armasm.LDR
            (armasm.Reg 15,
             armasm.MemArg (armasm.mkMem 1 armasm.AddrOffset 1 2 armasm.RotateRight 1 0),
             none, none))
  | Ok _ => Err (ErrOther 1)
  | Err e => Err e
  | Panic => Panic
  end.

(** Registers r0..r15 as a list. *)
Definition regsOf (rs : list Z) : Registers :=
  mkRegisters (default 0 (rs !! 15%nat))
              (λ n, match rs !! Z.to_nat n with
                    | Some v => if 0 <=? n then Ok v else Err (ErrOther 2)
                    | None => Err (ErrOther 2)
                    end).

Definition breakpoint : list byte := PutUint32 0xE7F001F0.
Definition t : nativeThread := mkThread 100 100 (mkArch 4 breakpoint).

Definition world (m : gmap Z byte) (rs : list Z) (q : list WaitAnswer) : World :=
  mkWorld m q false []
    (mkAnswers (Ok (regsOf rs)) None 0 None).

Definition trapOf (tid : Z) : WaitAnswer := mkWait tid (Some 0x057F) None None.

Definition regs0 (lr : Z) : list Z :=
  [0; 0; 0; 0; 0; 0; 0; 0; 0; 0; 0; 0; 0; 0x8000; lr; 0x1000].

Definition regs12 (r1 r2 : Z) : list Z :=
  [0; r1; r2; 0; 0; 0; 0; 0; 0; 0; 0; 0; 0; 0x8000; 0; 0x1000].

End Sample.

(** * The vocabulary of the properties *)

(** Whether an attempted register write succeeded, as the answers of the
    dispatch gate tell. *)
Definition succeeded (w : World) (c : Call) : bool :=
  match c with
  | CSetGRegs _ _ =>
      bool_decide (setGRegsAnswer (answers w) = None)
      || bool_decide (setGRegsAnswer (answers w) = Some (Errno 0))
  | CSetFpRegs _ _ => setFpRegsAnswer (answers w) =? 0
  | _ => true
  end.

(** The requests a call added to the trace. *)
Definition issued (w w' : World) : list Call := drop (length (trace w)) (trace w').

Definition isRead (c : Call) : bool :=
  match c with CGetRegs _ | CPeek _ _ _ => true | _ => false end.

(** [w'] differs from [w] by requests that only read. *)
Definition observes (w w' : World) : Prop :=
  memory w' = memory w ∧ events w' = events w ∧ exited w' = exited w
  ∧ answers w' = answers w
  ∧ ∃ l, trace w' = trace w ++ l ∧ forallb isRead l = true.

Definition readOnly {A} (m : M A) : Prop := ∀ w, observes w (m w).1.

(** Fetching the registers and resolving the candidate addresses, the
    part of [singleStep] before anything is planted. *)
Definition prepare (Decode : list byte → outcome armasm.Inst) (t : nativeThread) : M (list Z) :=
  (do regs <- Registers_ t; resolvePC Decode t regs)%go.

Module Import Classes.

(** The instruction classes that can write the program counter. *)
Definition isBranch (i : armasm.Inst) : bool :=
  match armasm.Op_ i with
  | armasm.BL | armasm.BLX | armasm.B | armasm.BX => true
  | _ => false
  end.

Definition popsPC (i : armasm.Inst) : bool :=
  match armasm.Op_ i, armasm.Args0 i with
  | armasm.POP, armasm.RegList l => Z.testbit l armasm.PC
  | _, _ => false
  end.

Definition loadsPC (i : armasm.Inst) : bool :=
  match armasm.Op_ i, armasm.Args0 i, armasm.Args1 i with
  | armasm.LDR, armasm.Reg r, armasm.MemArg _ => r =? armasm.PC
  | _, _, _ => false
  end.

Definition writesPC (i : armasm.Inst) : bool :=
  match armasm.Op_ i, armasm.Args0 i with
  | (armasm.MOV | armasm.ADD), armasm.Reg r => r =? armasm.PC
  | _, _ => false
  end.

Definition affectsPC (i : armasm.Inst) : bool :=
  isBranch i || popsPC i || loadsPC i || writesPC i.

End Classes.

(** The machine word of the architecture, in bytes. *)
Definition wordSize : Z := 4.

(** The number of registers of a register list below the slot of the
    program counter. *)
Definition registersBelowPC (l : Z) : Z :=
  Z.of_nat (length (List.filter (Z.testbit l) (seqZ 0 armasm.PC))).

(** The address the program counter is popped from: one word above the
    stack pointer for every register of the list below the program
    counter. *)
Definition popLoadAddress (sp l : Z) : Z := sp + wordSize * registersBelowPC l.

(** The little-endian word at an address. *)
Definition loadWord (m : gmap Z byte) (addr : Z) : option Z :=
  match readBytes m addr wordSize with
  | Some bs => match Uint32 bs with Ok v => Some v | _ => None end
  | None => None
  end.

(** The saved bytes as the planting loop of a step leaves them. *)
Definition planted (Decode : list byte → outcome armasm.Inst) (t : nativeThread)
    (w : World) : gmap Z (list byte) :=
  match prepare Decode t w with
  | (w1, Ok nextPcs) => (plant t nextPcs ∅ w1).2.1
  | _ => ∅
  end.

(** The addresses of the [n] bytes at [a]. *)
Definition span (a : Z) (n : nat) : list Z :=
  (λ j, uintptr (a + Z.of_nat j)) <$> seq 0 n.

(** No two of the addresses, taken in the order of the list, have one of
    their [n] bytes in common. *)
Fixpoint apart (n : nat) (l : list Z) : Prop :=
  match l with
  | [] => True
  | a :: l => Forall (λ b, Forall (λ k, k ∉ span b n) (span a n)) l ∧ apart n l
  end.

(** The saved bytes [od] and the memory [m] of an instrumented tracee
    whose memory was [m0]: what was mapped is mapped, a byte that differs
    lies in the span of a saved address, and what is saved for an address
    are the bytes of [m0] there. *)
Definition instrumented (n : nat) (m0 m : gmap Z byte) (od : gmap Z (list byte)) : Prop :=
  (∀ k, is_Some (m0 !! k) → is_Some (m !! k))
  ∧ (∀ k, m !! k = m0 !! k ∨ ∃ a d, od !! a = Some d ∧ k ∈ span a n)
  ∧ (∀ a d, od !! a = Some d → readBytesN m0 a n = Some d).

(** An event that is a trap of thread [tid]. *)
Definition isTrapOf (tid : Z) (a : WaitAnswer) : bool :=
  bool_decide (werr a = None) && (wpid a =? tid)
  && match wstatus a with
     | Some status => StopSignal status =? SIGTRAP
     | None => false
     end.

(** The shifter of the architecture on the 32-bit value of the index
    register: logical shift left, logical shift right, arithmetic shift
    right (the sign bit is shifted in), rotate right within the 32 bits,
    and rotate right by one through the carry flag. *)
Definition archShift (kind : armasm.Shift) (count : Z) (carry : bool) (x : Z) : Z :=
  match kind with
  | armasm.ShiftLeft => uint32 (Z.shiftl x count)
  | armasm.ShiftRight => Z.shiftr x count
  | armasm.ShiftRightSigned => uint32 (Z.shiftr (sint 32 x) count)
  | armasm.RotateRight =>
      uint32 (Z.lor (Z.shiftr x (count mod 32)) (Z.shiftl x (32 - count mod 32)))
  | armasm.RotateRightExt => Z.lor (Z.shiftl (Z.b2z carry) 31) (Z.shiftr x 1)
  end.

(** The effective address of the architecture for a memory operand, from
    the values of the base and index registers. *)
Definition archLoadAddress (arg : armasm.Mem) (carry : bool) (base idx : Z) : Z :=
  match armasm.Mode arg with
  | armasm.AddrOffset | armasm.AddrPreIndex =>
      if armasm.Sign arg =? 0 then uint32 (base + armasm.Offset arg)
      else
        let x := archShift (armasm.Shift_ arg) (armasm.Count arg) carry idx in
        if armasm.Sign arg <? 0 then uint32 (base - x) else uint32 (base + x)
  | _ => base
  end.

(** An event at which the wait loop stops waiting: a failed wait, the
    exit of the process, or an event of the stepped thread that is a trap
    or has no status. *)
Definition endsWait (t : nativeThread) (a : WaitAnswer) : bool :=
  match werr a with
  | Some _ => true
  | None =>
      (match wstatus a with None => true | Some status => Exited status end
       && (wpid a =? pid t))
      || ((wpid a =? ID t)
          && match wstatus a with
             | None => true
             | Some status => StopSignal status =? SIGTRAP
             end)
  end.

(** The calls of [wait] among the requests. *)
Definition isWait (c : Call) : bool :=
  match c with CWait _ => true | _ => false end.

(** An event that reports the exit of the process: no error, the process
    id, and a status that is nil or an exit. *)
Definition isProcessExit (t : nativeThread) (a : WaitAnswer) : bool :=
  bool_decide (werr a = None)
  && match wstatus a with None => true | Some status => Exited status end
  && (wpid a =? pid t).

(** The exit status an exit event carries. *)
Definition exitStatusOf (a : WaitAnswer) : Z :=
  match wstatus a with
  | Some status => Z.land (Z.shiftr status 8) 255
  | None => 0
  end.

(** A peek of [len] bytes by thread [tid]. *)
Definition isPeekOf (tid len : Z) (c : Call) : bool :=
  match c with
  | CPeek tid' _ len' => (tid' =? tid) && (len' =? len)
  | _ => false
  end.

(** A computation that leaves the world as it is but for at most [n]
    peeks of [len] bytes by thread [tid]. *)
Definition peeks (tid len : Z) (n : nat) {A} (m : M A) : Prop :=
  ∀ w, memory (m w).1 = memory w ∧ events (m w).1 = events w
       ∧ exited (m w).1 = exited w ∧ answers (m w).1 = answers w
       ∧ ∃ l, trace (m w).1 = trace w ++ l
              ∧ forallb (isPeekOf tid len) l = true ∧ (length l ≤ n)%nat.


(** A computation whose results all satisfy [Q]. *)
Definition returns {A} (Q : A → Prop) (m : M A) : Prop :=
  ∀ w w' a, m w = (w', Ok a) → Q a.

(** The value a source operand of a MOV or ADD contributes: an immediate
    itself, a register its value, any other operand shape nothing. *)
Definition operand (regs : Registers) (a : armasm.Arg) : outcome Z :=
  match a with
  | armasm.Imm v => Ok (uint32 v)
  | armasm.Reg r => Get regs r
  | _ => Ok 0
  end.

(** The address a load with an immediate offset reads from: the base
    alone when the offset is applied after the access. *)
Definition immediateAddress (arg : armasm.Mem) (base : Z) : Z :=
  match armasm.Mode arg with
  | armasm.AddrOffset | armasm.AddrPreIndex => base + armasm.Offset arg
  | _ => base
  end.

(** The rotation of a 64-bit value to the right by [s] bits. *)
Definition rotateRight64 (x s : Z) : Z :=
  Z.lor (uint64 (Z.shiftl x (64 - s))) (Z.shiftr x s).

(** The address a branch of the architecture goes to: the offset of the
    encoding counts from the address of the instruction plus 8. *)
Definition branchTarget (pc off : Z) : Z := uint32 (pc + 8 + off).

(** The registers [resolvePC] reads for an instruction. *)
Definition registersRead (i : armasm.Inst) : list Z :=
  match armasm.Op_ i with
  | armasm.BL | armasm.BLX | armasm.B | armasm.BX =>
      match armasm.Args0 i with armasm.Reg r => [r] | _ => [] end
  | armasm.POP => if popsPC i then [armasm.SP] else []
  | armasm.LDR =>
      match armasm.Args1 i with
      | armasm.MemArg arg =>
          if loadsPC i then
            armasm.Base arg
            :: match armasm.Mode arg with
               | armasm.AddrOffset | armasm.AddrPreIndex =>
                   if armasm.Sign arg =? 0 then [] else [armasm.Index arg]
               | _ => []
               end
          else []
      | _ => []
      end
  | armasm.MOV | armasm.ADD =>
      if writesPC i then
        omap (λ a, match a with armasm.Reg r => Some r | _ => None end)
             (armasm.ArgsFrom1 i)
      else []
  | armasm.OtherOp _ => []
  end.

(** A computation whose errors all satisfy [P], together with the world
    they leave. *)
Definition failsAt {A} (P : World → error → Prop) (m : M A) : Prop :=
  ∀ w w' e, m w = (w', Err e) → P w' e.

(** The last request on record is a peek of [len] bytes by thread [tid]
    that found some of its bytes unmapped. *)
Definition peekFailed (tid len : Z) (w : World) : Prop :=
  ∃ addr, last (trace w) = Some (CPeek tid addr len)
          ∧ readBytes (memory w) addr len = None.

(** More sample inputs: writes of the program counter, and the forms
    under a condition. *)
Module More.

(** The decoder has an op of its own for every condition of an
    instruction: [B_EQ] and [POP_EQ] are those of a branch and of a pop
    under the condition EQ.  The source names neither; the numbers only
    tell them apart. *)
Definition B_EQ : armasm.Op := armasm.OtherOp 1.
Definition POP_EQ : armasm.Op := armasm.OtherOp 2.

Definition Decode (bs : list byte) : outcome armasm.Inst :=
  let none := armasm.OtherArg in
  match Uint32 bs with
  | Ok 0xE28FF008 =>      (* add pc, pc, #8 *)
      Ok (armasm.mkInst armasm.ADD (armasm.Reg 15, armasm.Reg 15, armasm.Imm 8, none))
  | Ok 0xE1A0F00E =>      (* mov pc, lr *)
      Ok (armasm.mkInst armasm.MOV (armasm.Reg 15, armasm.Reg 14, none, none))
  | Ok 0xE49DF004 =>      (* ldr pc, [sp], #4, decoded as pop {pc} *)
      Ok (armasm.mkInst armasm.POP (armasm.RegList 0x8000, none, none, none))
  | Ok 0xE491F004 =>      (* ldr pc, [r1], #4 *)
      Ok (armasm.mkInst armasm.LDR
            (armasm.Reg 15,
             armasm.MemArg (armasm.mkMem 1 armasm.AddrPostIndex 0 0 armasm.ShiftLeft 0 4),
             none, none))
  | Ok 0xE51FF004 =>      (* ldr pc, [pc, #-4] *)
      Ok (armasm.mkInst armasm.LDR
            (armasm.Reg 15,
             armasm.MemArg (armasm.mkMem 15 armasm.AddrOffset 0 0 armasm.ShiftLeft 0 (-4)),
             none, none))
  | Ok 0xE8BD8009 =>      (* pop {r0, r3, pc} *)
      Ok (armasm.mkInst armasm.POP (armasm.RegList 0x8009, none, none, none))
  | Ok 0x08BD8009 =>      (* popeq {r0, r3, pc} *)
      Ok (armasm.mkInst POP_EQ (armasm.RegList 0x8009, none, none, none))
  | Ok 0xEB0003FE =>      (* bl 0x2000, at 0x1000 *)
      Ok (armasm.mkInst armasm.BL (armasm.PCRel 0xFF8, none, none, none))
  | Ok 0x0A0003FE =>      (* beq 0x2000, at 0x1000 *)
      Ok (armasm.mkInst B_EQ (armasm.PCRel 0xFF8, none, none, none))
  | Ok _ => Err (ErrOther 1)
  | Err e => Err e
  | Panic => Panic
  end.

End More.

#[global] Instance byte_eq : EqDecision byte := Byte.byte_eq_dec.

(** A request of the planting loop: a peek by the thread, or a poke of
    the breakpoint by the thread. *)
Definition isPlant (t : nativeThread) (c : Call) : bool :=
  match c with
  | CPeek tid _ _ => tid =? ID t
  | CPoke tid _ data =>
      (tid =? ID t) && bool_decide (data = BreakpointInstruction (arch t))
  | _ => false
  end.

(** A request of the wait loop: a wait, or the notice of the exit. *)
Definition isWaiting (c : Call) : bool :=
  match c with CWait _ | CPostExit => true | _ => false end.

Definition isPoke (c : Call) : bool :=
  match c with CPoke _ _ _ => true | _ => false end.

(** * Properties *)

(** ** Register transfer *)

Lemma issued_app w w' l : trace w' = trace w ++ l → issued w w' = l.
Proof. intros H. unfold issued. by rewrite H, drop_app_length. Qed.

(** The three ways through [restoreRegisters] when no panic occurs. *)
Lemma restoreRegisters_cases (t : nativeThread) (sr : ARMRegisters) (w : World) :
  Fpregset sr ≠ Some [] →
  let ga := setGRegsAnswer (answers w) in
  let fa := setFpRegsAnswer (answers w) in
  let w' := (restoreRegisters t sr w).1 in
  let r := (restoreRegisters t sr w).2 in
  (ga ≠ Some (Errno 0)
   ∧ trace w' = trace w ++ [CSetGRegs (ID t) (Regs sr)] ∧ r = Returned ga)
  ∨ (ga = Some (Errno 0) ∧ Fpregset sr = None
     ∧ trace w' = trace w ++ [CSetGRegs (ID t) (Regs sr)] ∧ r = Returned None)
  ∨ (ga = Some (Errno 0) ∧ ∃ block, Fpregset sr = Some block
     ∧ trace w' = trace w ++ [CSetGRegs (ID t) (Regs sr); CSetFpRegs (ID t) block]
     ∧ r = Returned (if fa =? 0 then None else Some (Errno fa))).
Proof.
  intros Hblock. unfold restoreRegisters, ptraceSetGRegs, ptraceSetFpRegset.
  destruct w as [m q x tr [ra ga fa ca]]; cbn [answers setGRegsAnswer setFpRegsAnswer].
  destruct (decide (ga = Some (Errno 0))) as [->|Hne].
  - rewrite bool_decide_eq_false_2 by (intros H; by apply H).
    destruct sr as [rs [[|b fp]|]]; cbn [Fpregset Regs] in *; [done| |].
    + right; right. split; [done|]. exists (b :: fp). cbn.
      rewrite <- app_assoc. repeat split; try done.
      destruct (Z.eqb_spec fa 0) as [->|Hfa].
      * by rewrite bool_decide_eq_true_2.
      * rewrite bool_decide_eq_false_2; [done|congruence].
    + right; left. cbn. by rewrite bool_decide_eq_true_2.
  - left. rewrite bool_decide_eq_true_2 by done. cbn.
    by rewrite bool_decide_eq_false_2.
Qed.

(** C9. [restoreRegisters] issues the general-register write first; when
    that write fails nothing else is issued and its failure is the result;
    when the saved floating-point block is absent the general-register
    write is the only request and its outcome alone decides the result; and
    the call returns nil exactly when every request it issued succeeded.
    A floating-point block that was captured is not empty. *)
Theorem restoreRegisters_order_and_result (t : nativeThread) (sr : ARMRegisters) (w : World)
    (Hblock : Fpregset sr ≠ Some []) :
  let w' := (restoreRegisters t sr w).1 in
  let r := (restoreRegisters t sr w).2 in
  head (issued w w') = Some (CSetGRegs (ID t) (Regs sr))
  ∧ (∀ e, setGRegsAnswer (answers w) = Some e → e ≠ Errno 0 →
       issued w w' = [CSetGRegs (ID t) (Regs sr)] ∧ r = Returned (Some e))
  ∧ (Fpregset sr = None →
       issued w w' = [CSetGRegs (ID t) (Regs sr)]
       ∧ (succeeded w (CSetGRegs (ID t) (Regs sr)) = true → r = Returned None))
  ∧ (r = Returned None ↔ forallb (succeeded w) (issued w w') = true).
Proof.
  intros w' r.
  destruct (restoreRegisters_cases t sr w Hblock)
    as [(Hga & Htr & Hr)|[(Hga & Hfp & Htr & Hr)|(Hga & block & Hfp & Htr & Hr)]];
    fold w' in Htr; fold r in Hr; rewrite (issued_app _ _ _ Htr), Hr; clear Htr Hr.
  - split_and!; [done| |..].
    + intros e He _. by rewrite He.
    + intros _. split; [done|]. cbn. intros [H|H]%orb_true_iff;
        apply bool_decide_eq_true in H; congruence.
    + cbn. rewrite andb_true_r, orb_true_iff, !bool_decide_eq_true.
      split; [intros [= ->]; by left|]. intros [->|?]; done.
  - split_and!; [done| |..].
    + intros e He Hne. congruence.
    + done.
    + cbn. rewrite Hga. by rewrite andb_true_r, orb_true_iff, !bool_decide_eq_true; split; [right|].
  - split_and!; [done| |..].
    + intros e He Hne. congruence.
    + congruence.
    + cbn. rewrite Hga, andb_true_r.
      rewrite (bool_decide_eq_true_2 (Some (Errno 0) = Some (Errno 0))) by done.
      rewrite orb_true_r, andb_true_l.
      destruct (Z.eqb_spec (setFpRegsAnswer (answers w)) 0); split; done.
Qed.

Lemma restoreRegisters_order_and_result_witness :
  let sr := mkARMRegisters [1; 2; 3] (Some [x01; x02]) in
  let w := mkWorld ∅ [] false [] (mkAnswers Panic (Some (Errno 0)) 0 None) in
  Fpregset sr ≠ Some []
  ∧ (restoreRegisters Sample.t sr w).2 = Returned None
  ∧ issued w (restoreRegisters Sample.t sr w).1
    = [CSetGRegs 100 [1; 2; 3]; CSetFpRegs 100 [x01; x02]].
Proof.
  intros sr w.
  assert (Hblock : Fpregset sr ≠ Some []) by (cbn; congruence).
  split; [exact Hblock|].
  destruct (restoreRegisters_order_and_result Sample.t sr w Hblock) as (_ & _ & _ & Hiff).
  split; [|reflexivity].
  apply Hiff. reflexivity.
Defined.

(** ** Running computations *)

Lemma bind_Ok {A B} (m : M A) (k : A → M B) w w' a :
  m w = (w', Ok a) → bind m k w = k a w'.
Proof. unfold bind. by intros ->. Qed.

Lemma bind_Ok_inv {A B} (m : M A) (k : A → M B) w w'' b :
  bind m k w = (w'', Ok b) → ∃ a w', m w = (w', Ok a) ∧ k a w' = (w'', Ok b).
Proof.
  unfold bind. destruct (m w) as [w' [a|e|]]; [|done..].
  intros H. by exists a, w'.
Qed.

Lemma lift_inv {A} (o : outcome A) w w' r : lift o w = (w', r) → w' = w ∧ o = r.
Proof. unfold lift. by intros [= -> ->]. Qed.

Lemma ret_inv {A} (a : A) w w' r : ret a w = (w', r) → w' = w ∧ r = Ok a.
Proof. unfold ret. by intros [= -> <-]. Qed.

Lemma make_Ok_inv n w w' u : make n w = (w', Ok u) → w' = w ∧ 0 ≤ n.
Proof.
  unfold make. destruct (Z.ltb_spec n 0); [done|]. by intros [= ->].
Qed.

Lemma make_Ok n w : 0 ≤ n → make n w = (w, Ok ()).
Proof. intros H. unfold make. by destruct (Z.ltb_spec n 0); [lia|]. Qed.

Lemma PtracePeekData_Ok tid addr n w bs :
  readBytes (memory w) addr n = Some bs →
  PtracePeekData tid addr n w = (record (CPeek tid addr n) w, Ok bs).
Proof. unfold PtracePeekData. cbn. by intros ->. Qed.

Lemma PtracePeekData_Ok_inv tid addr n w w' bs :
  PtracePeekData tid addr n w = (w', Ok bs) →
  w' = record (CPeek tid addr n) w ∧ readBytes (memory w) addr n = Some bs.
Proof.
  unfold PtracePeekData. cbn. destruct (readBytes (memory w) addr n); [|done].
  by intros [= <- <-].
Qed.

(** ** Reads leave the tracee alone *)

Lemma observes_refl w : observes w w.
Proof. repeat split. exists []. by rewrite app_nil_r. Qed.

Lemma observes_trans w1 w2 w3 : observes w1 w2 → observes w2 w3 → observes w1 w3.
Proof.
  intros (Hm & He & Hx & Ha & l & Ht & Hl) (Hm' & He' & Hx' & Ha' & l' & Ht' & Hl').
  repeat split; try congruence.
  exists (l ++ l'). split.
  - by rewrite Ht', Ht, app_assoc.
  - by rewrite forallb_app, Hl, Hl'.
Qed.

Lemma observes_record c w : isRead c = true → observes w (record c w).
Proof. intros H. repeat split. exists [c]. cbn. by rewrite H. Qed.

Lemma readOnly_ret {A} (a : A) : readOnly (ret a).
Proof. intros w. apply observes_refl. Qed.

Lemma readOnly_lift {A} (o : outcome A) : readOnly (lift o).
Proof. intros w. apply observes_refl. Qed.

Lemma readOnly_make n : readOnly (make n).
Proof. intros w. unfold make. destruct (n <? 0); apply observes_refl. Qed.

Lemma readOnly_bind {A B} (m : M A) (k : A → M B) :
  readOnly m → (∀ a, readOnly (k a)) → readOnly (bind m k).
Proof.
  intros Hm Hk w. specialize (Hm w). unfold bind.
  destruct (m w) as [w' [a|e|]]; cbn in *; [|done..].
  eapply observes_trans; [done|]. apply Hk.
Qed.

Lemma readOnly_PtracePeekData tid addr n : readOnly (PtracePeekData tid addr n).
Proof.
  intros w. unfold PtracePeekData. cbn.
  destruct (readBytes (memory w) addr n); by apply observes_record.
Qed.

Lemma readOnly_Registers t : readOnly (Registers_ t).
Proof. intros w. by apply observes_record. Qed.

Create HintDb readonly.
#[local] Hint Resolve readOnly_ret readOnly_lift readOnly_make readOnly_bind
  readOnly_PtracePeekData readOnly_Registers : readonly.

Lemma readOnly_loadAddress regs arg : readOnly (loadAddress regs arg).
Proof.
  unfold loadAddress. apply readOnly_bind; [auto with readonly|]. intros pc.
  repeat case_match; auto 10 with readonly.
Qed.

Lemma readOnly_sumArgs regs args pc : readOnly (sumArgs regs args pc).
Proof.
  revert pc. induction args as [|[] args IH]; intros pc; cbn; auto with readonly.
Qed.

#[local] Hint Resolve readOnly_loadAddress readOnly_sumArgs : readonly.

Lemma readOnly_resolvePC Decode t regs : readOnly (resolvePC Decode t regs).
Proof.
  unfold resolvePC.
  repeat (apply readOnly_bind; [auto with readonly|]; intros ?).
  repeat case_match; auto 20 with readonly.
Qed.

(** ** The prepare phase of [singleStep] *)

Lemma readOnly_prepare Decode t : readOnly (prepare Decode t).
Proof.
  unfold prepare. apply readOnly_bind; [apply readOnly_Registers|].
  intros regs. apply readOnly_resolvePC.
Qed.

Lemma singleStep_prepare_Err Decode order t w w' e :
  prepare Decode t w = (w', Err e) →
  singleStep Decode order t w = (w', Returned (Some e)).
Proof.
  unfold prepare, bind, singleStep.
  destruct (Registers_ t w) as [w1 [regs|e1|]]; [|by intros [= <- <-]|done].
  destruct (resolvePC Decode t regs w1) as [w2 [pcs|e2|]]; [done| |done].
  by intros [= <- <-].
Qed.

(** C10. When the register fetch or the resolution of the candidate
    addresses fails, [singleStep] returns that error, the tracee's memory
    is as it was, and every request issued was a read: nothing was poked
    and the tracee was not resumed. *)
Theorem singleStep_prepare_failure
    (Decode : list byte → outcome armasm.Inst)
    (order : gmap Z (list byte) → list (Z * list byte))
    (t : nativeThread) (w : World) (e : error) :
  (prepare Decode t w).2 = Err e →
  let w' := (singleStep Decode order t w).1 in
  (singleStep Decode order t w).2 = Returned (Some e)
  ∧ memory w' = memory w
  ∧ forallb isRead (issued w w') = true.
Proof.
  intros He. pose proof (readOnly_prepare Decode t w) as Hobs.
  destruct (prepare Decode t w) as [w1 r] eqn:Hp. cbn in He, Hobs. subst r.
  rewrite (singleStep_prepare_Err _ order _ _ _ _ Hp). cbn.
  destruct Hobs as (Hm & _ & _ & _ & l & Ht & Hl).
  by rewrite (issued_app _ _ _ Ht).
Qed.

Lemma singleStep_prepare_failure_witness :
  let w := Sample.world ∅ (Sample.regs0 0) [] in
  (prepare Sample.Decode Sample.t w).2 = Err (Errno EIO)
  ∧ (singleStep Sample.Decode map_to_list Sample.t w).2 = Returned (Some (Errno EIO))
  ∧ issued w (singleStep Sample.Decode map_to_list Sample.t w).1
    = [CGetRegs 100; CPeek 100 0x1000 4].
Proof.
  intros w.
  assert (H : (prepare Sample.Decode Sample.t w).2 = Err (Errno EIO)) by reflexivity.
  split; [exact H|].
  split; [|reflexivity].
  exact (proj1 (singleStep_prepare_failure Sample.Decode map_to_list Sample.t w _ H)).
Defined.

(** ** Machine arithmetic *)

Lemma uint64_small x : 0 ≤ x < 2 ^ 64 → uint64 x = x.
Proof. intros H. unfold uint64, uint. by apply Z.mod_small. Qed.

Lemma uint32_small x : 0 ≤ x < 2 ^ 32 → uint32 x = x.
Proof. intros H. unfold uint32, uint. by apply Z.mod_small. Qed.

Lemma uint64_add_r a b : uint64 (a + uint64 b) = uint64 (a + b).
Proof. unfold uint64, uint. by rewrite Zplus_mod_idemp_r. Qed.

Lemma uint64_add_l a b : uint64 (uint64 a + b) = uint64 (a + b).
Proof. unfold uint64, uint. by rewrite Zplus_mod_idemp_l. Qed.

Lemma uintptr_uint64 x : uintptr (uint64 x) = uintptr x.
Proof.
  unfold uintptr, uint64, uint.
  apply Z.mod_mod_divide. exists (2 ^ 32). lia.
Qed.


Lemma land_bit l i : 0 ≤ i → (Z.land l (Z.shiftl 1 i) =? 0) = negb (Z.testbit l i).
Proof.
  intros Hi. rewrite Z.shiftl_1_l.
  destruct (Z.testbit l i) eqn:Hb; cbn.
  - apply Z.eqb_neq. intros H0.
    assert (Z.testbit (Z.land l (2 ^ i)) i = true) as Hbit
      by (by rewrite Z.land_spec, Hb, Z.pow2_bits_true).
    by rewrite H0, Z.bits_0 in Hbit.
  - apply Z.eqb_eq. apply Z.bits_inj'. intros n Hn.
    rewrite Z.land_spec, Z.bits_0, Z.pow2_bits_eqb by done.
    destruct (Z.eqb_spec i n) as [->|]; [by rewrite Hb|by rewrite andb_false_r].
Qed.

(** ** The candidate addresses *)

(** Taking apart a run that ended in a result. *)
Ltac inv_run :=
  repeat match goal with
    | H : bind _ _ _ = (_, Ok _) |- _ =>
        apply bind_Ok_inv in H as (? & ? & ? & H)
    | H : ret _ _ = (_, Ok _) |- _ =>
        let E := fresh in apply ret_inv in H as [-> E]; injection E as ->
    | H : lift _ _ = (_, _) |- _ => apply lift_inv in H as [-> ?]
    | H : make _ _ = (_, Ok _) |- _ => apply make_Ok_inv in H as [-> ?]
    | H : PtracePeekData _ _ _ _ = (_, Ok _) |- _ =>
        apply PtracePeekData_Ok_inv in H as [-> ?]
    end.

(** What a successful [resolvePC] went through: the fetch, the decoding,
    and a result that starts with the seeded address. *)
Lemma resolvePC_shape Decode t regs w w' pcs :
  resolvePC Decode t regs w = (w', Ok pcs) →
  let seed := uint64 (PC regs + uint64 (MaxInstructionLength (arch t))) in
  0 ≤ MaxInstructionLength (arch t)
  ∧ head pcs = Some seed
  ∧ ∃ bs inst,
      readBytes (memory w) (uintptr (PC regs)) (MaxInstructionLength (arch t)) = Some bs
      ∧ Decode bs = Ok inst
      ∧ (affectsPC inst = false → pcs = [seed]).
Proof.
  intros Hrun seed. unfold resolvePC in Hrun. fold seed in Hrun.
  apply bind_Ok_inv in Hrun as (? & w0 & Hmk & Hrun).
  apply make_Ok_inv in Hmk as [-> Hlen0].
  apply bind_Ok_inv in Hrun as (bs & w1 & Hpk & Hrun).
  apply PtracePeekData_Ok_inv in Hpk as [-> Hbs].
  apply bind_Ok_inv in Hrun as (inst & w2 & Hd & Hrun).
  apply lift_inv in Hd as [-> Hdec].
  assert (Hhead : head pcs = Some seed ∧ (affectsPC inst = false → pcs = [seed])).
  { unfold affectsPC, isBranch, popsPC, loadsPC, writesPC.
    clear Hdec. destruct inst as [op [[[a0 a1] a2] a3]].
    cbn [armasm.Op_ armasm.Args0 armasm.Args1 armasm.ArgsFrom1 armasm.Args] in *.
    destruct op, a0; try (inv_run; done).
    - (* POP *)
      rewrite land_bit, negb_involutive in Hrun by (cbv; congruence).
      destruct (Z.testbit l armasm.PC); inv_run; done.
    - (* LDR *)
      destruct (r =? armasm.PC); [|inv_run; done].
      destruct a1; inv_run; done.
    - (* MOV *)
      destruct (r =? armasm.PC); inv_run; done.
    - (* ADD *)
      destruct (r =? armasm.PC); inv_run; done. }
  destruct Hhead as [Hhead Hexact].
  split; [done|]. split; [done|]. by exists bs, inst.
Qed.

(** C4. A successful [resolvePC] returns a sequence that starts with the
    fall-through address [PC + MaxInstructionLength]; and when the decoded
    instruction is no branch, no pop including the program counter, no load
    into the program counter and no MOV or ADD into it, the fall-through
    address is the whole result. *)
Theorem resolvePC_fall_through
    (Decode : list byte → outcome armasm.Inst) (t : nativeThread)
    (regs : Registers) (w w' : World) (pcs : list Z) :
  0 ≤ PC regs →
  PC regs + MaxInstructionLength (arch t) < 2 ^ 64 →
  resolvePC Decode t regs w = (w', Ok pcs) →
  let fallThrough := PC regs + MaxInstructionLength (arch t) in
  pcs ≠ []
  ∧ head pcs = Some fallThrough
  ∧ fallThrough ∈ pcs
  ∧ ∃ bs inst,
      readBytes (memory w) (uintptr (PC regs)) (MaxInstructionLength (arch t)) = Some bs
      ∧ Decode bs = Ok inst
      ∧ (affectsPC inst = false → pcs = [fallThrough]).
Proof.
  intros Hpc Hlen Hrun fallThrough.
  destruct (resolvePC_shape _ _ _ _ _ _ Hrun) as (Hlen0 & Hhead & bs & inst & Hbs & Hdec & Hexact).
  assert (Hft : uint64 (PC regs + uint64 (MaxInstructionLength (arch t))) = fallThrough).
  { rewrite uint64_add_r. apply uint64_small. unfold fallThrough. lia. }
  rewrite Hft in Hhead, Hexact.
  split; [by destruct pcs|]. split; [done|].
  split; [destruct pcs; [done|]; cbn in Hhead; injection Hhead as ->; left|].
  by exists bs, inst.
Qed.

Lemma resolvePC_fall_through_witness :
  let regs := Sample.regsOf (Sample.regs0 0) in
  let w := Sample.world (Sample.storeWord 0x1000 0xE1A00000 ∅) (Sample.regs0 0) [] in
  resolvePC Sample.Decode Sample.t regs w
    = (record (CPeek 100 0x1000 4) w, Ok [0x1004])
  ∧ head [0x1004] = Some (PC regs + MaxInstructionLength (arch Sample.t)).
Proof.
  intros regs w.
  assert (Hrun : resolvePC Sample.Decode Sample.t regs w
                 = (record (CPeek 100 0x1000 4) w, Ok [0x1004])) by reflexivity.
  split; [exact Hrun|].
  refine (proj1 (proj2 (resolvePC_fall_through Sample.Decode Sample.t regs w _ _ _ _ Hrun))).
  - cbn. lia.
  - cbn. lia.
Defined.

Lemma bind_lift_Ok {A B} (o : outcome A) (k : A → M B) w a :
  o = Ok a → bind (lift o) k w = k a w.
Proof. by intros ->. Qed.



(** C7. Branches are not resolved as described.  For the
    branch-with-link [bl 0x2000] at 0x1000 the decoder gives the offset
    0xFF8 of the encoding, which the architecture counts from 0x1008, and
    [resolvePC] adds it to 0x1000: the candidates are 0x1004 and 0x1FF8,
    not 0x1004 and 0x2000.  For the branch [beq 0x2000], whose op is the one
    of the condition, it returns the fall-through address alone. *)
Theorem resolvePC_branch_divergence :
  let regs := Sample.regsOf (Sample.regs0 0) in
  let w op := Sample.world (Sample.storeWord 0x1000 op ∅) (Sample.regs0 0) [] in
  (* bl 0x2000 *)
  resolvePC More.Decode Sample.t regs (w 0xEB0003FE)
    = (record (CPeek 100 0x1000 4) (w 0xEB0003FE), Ok [0x1004; 0x1FF8])
  ∧ branchTarget (PC regs) 0xFF8 = 0x2000
  (* beq 0x2000 *)
  ∧ resolvePC More.Decode Sample.t regs (w 0x0A0003FE)
    = (record (CPeek 100 0x1000 4) (w 0x0A0003FE), Ok [0x1004]).
Proof. intros regs w. split_and!; reflexivity. Qed.

(** ** Pop including the program counter *)





(** C5. A pop under a condition is not resolved.  With the stack
    pointer at 0x8000 and the word 0x2468 stored at 0x8008,
    [pop {r0, r3, pc}] gives the candidates 0x1004 and 0x2468 after a
    second read at 0x8008, while for [popeq {r0, r3, pc}], whose op is the
    one of the condition, [resolvePC] reads the instruction only and
    returns the fall-through address alone, although the word the program
    counter would be loaded with is there at SP + 2 words. *)
Theorem resolvePC_conditional_pop_missed :
  let regs := Sample.regsOf (Sample.regs0 0) in
  let w op := Sample.world (Sample.storeWord 0x1000 op (Sample.storeWord 0x8008 0x2468 ∅))
                           (Sample.regs0 0) [] in
  (* pop {r0, r3, pc} *)
  resolvePC More.Decode Sample.t regs (w 0xE8BD8009)
    = (record (CPeek 100 0x8008 4) (record (CPeek 100 0x1000 4) (w 0xE8BD8009)),
       Ok [0x1004; 0x2468])
  (* popeq {r0, r3, pc} *)
  ∧ resolvePC More.Decode Sample.t regs (w 0x08BD8009)
    = (record (CPeek 100 0x1000 4) (w 0x08BD8009), Ok [0x1004])
  ∧ Get regs armasm.SP = Ok 0x8000
  ∧ popLoadAddress 0x8000 0x8009 = 0x8000 + 2 * wordSize
  ∧ loadWord (memory (w 0x08BD8009)) (popLoadAddress 0x8000 0x8009) = Some 0x2468.
Proof. intros regs w. split_and!; reflexivity. Qed.

(** ** The order of [range] *)

(** A map with at most one entry is visited in one way only. *)
Lemma order_small (order : gmap Z (list byte) → list (Z * list byte))
    (m : gmap Z (list byte)) :
  order m ≡ₚ map_to_list m → (length (map_to_list m) ≤ 1)%nat →
  order m = map_to_list m.
Proof.
  intros Hp Hlen. destruct (map_to_list m) as [|x [|y l]]; cbn in Hlen; [| |lia].
  - by apply Permutation_nil_r.
  - by apply Permutation_singleton_r.
Qed.

(** When at most one address was saved, the order of [range] plays no
    part in the step. *)
Lemma singleStep_order_small Decode order t w :
  (∀ m, order m ≡ₚ map_to_list m) →
  (length (map_to_list (planted Decode t w)) ≤ 1)%nat →
  singleStep Decode order t w = singleStep Decode map_to_list t w.
Proof.
  intros Horder. unfold planted, prepare, bind, singleStep.
  destruct (Registers_ t w) as [w1 [regs| |]]; [|done..].
  destruct (resolvePC Decode t regs w1) as [w2 [nextPcs| |]]; [|done..].
  destruct (plant t nextPcs ∅ w2) as [w3 [originalDatas r]]. cbn [fst snd].
  intros Hsmall. unfold leave.
  by rewrite (order_small order originalDatas (Horder _) Hsmall).
Qed.

(** C1. A step of [bx lr] at 0x1000 with lr = 0x1004: the target and the
    fall-through address are the same address, which is instrumented
    twice.  The step reports success, and the word at 0x1004, a
    [mov r0, r0] before the step, is the breakpoint after it. *)
Theorem singleStep_duplicate_candidate_left_planted
    (order : gmap Z (list byte) → list (Z * list byte))
    (Horder : ∀ m, order m ≡ₚ map_to_list m) :
  let m := Sample.storeWord 0x1000 0xE12FFF1E (Sample.storeWord 0x1004 0xE1A00000 ∅) in
  let w := Sample.world m (Sample.regs0 0x1004) [Sample.trapOf 100] in
  let w' := (singleStep Sample.Decode order Sample.t w).1 in
  (resolvePC Sample.Decode Sample.t (Sample.regsOf (Sample.regs0 0x1004)) w).2
    = Ok [0x1004; 0x1004]
  ∧ (singleStep Sample.Decode order Sample.t w).2 = Returned None
  ∧ readBytes (memory w) 0x1004 4 = Some (Sample.PutUint32 0xE1A00000)
  ∧ readBytes (memory w') 0x1004 4 = Some (Sample.PutUint32 0xE7F001F0)
  ∧ readBytes (memory w') 0x1004 4 ≠ readBytes (memory w) 0x1004 4.
Proof.
  intros m w w'.
  assert (Hstep : singleStep Sample.Decode order Sample.t w
                  = singleStep Sample.Decode map_to_list Sample.t w).
  { apply singleStep_order_small; [done|]. vm_compute. lia. }
  subst w'. rewrite Hstep. vm_compute. split_and!; congruence.
Qed.

Lemma singleStep_duplicate_candidate_left_planted_witness :
  let m := Sample.storeWord 0x1000 0xE12FFF1E (Sample.storeWord 0x1004 0xE1A00000 ∅) in
  let w := Sample.world m (Sample.regs0 0x1004) [Sample.trapOf 100] in
  (∀ m : gmap Z (list byte), map_to_list m ≡ₚ map_to_list m)
  ∧ (singleStep Sample.Decode map_to_list Sample.t w).2 = Returned None.
Proof.
  intros m w. split; [done|].
  exact (proj1 (proj2 (singleStep_duplicate_candidate_left_planted map_to_list
                         (λ m, reflexivity _)))).
Defined.

(** ** The deferred function and the result *)

(** With an entry to write back, the deferred function leaves in [err]
    the result of its last write, whatever [err] held before. *)
Lemma restoreOriginal_forgets t entries err err' w :
  entries ≠ [] → restoreOriginal t entries err w = restoreOriginal t entries err' w.
Proof.
  destruct entries as [|[addr originalData] rest]; [done|]. intros _. cbn.
  by destruct (PtracePokeData (ID t) addr originalData w).
Qed.

Lemma leave_forgets order t originalDatas w err err' :
  (∀ m, order m ≡ₚ map_to_list m) → originalDatas ≠ ∅ →
  leave order t originalDatas (w, Returned err)
  = leave order t originalDatas (w, Returned err').
Proof.
  intros Horder Hne. unfold leave.
  rewrite (restoreOriginal_forgets t _ err err'); [done|].
  intros Hnil. apply Hne, map_to_list_empty_iff. symmetry.
  apply Permutation_nil_l. by rewrite <- (Horder originalDatas), Hnil.
Qed.

(** X3. The wait loop passes over an event of another thread that is not
    the exit of the process. *)
Lemma waitLoop_other_thread t a q w :
  werr a = None → wpid a ≠ ID t → wpid a ≠ pid t →
  waitLoop t (a :: q) w
  = waitLoop t q (arrive a (record (CWait (ID t)) (setEvents q w))).
Proof.
  intros He Hid Hpid. cbn. rewrite He.
  destruct (Z.eqb_spec (wpid a) (pid t)); [done|]. rewrite andb_false_r.
  by destruct (Z.eqb_spec (wpid a) (ID t)).
Qed.

(** X4. The wait loop itself ends with nil only at a trap of the stepped
    thread. *)
Lemma waitLoop_nil_trap t q w w' :
  waitLoop t q w = (w', Returned None) →
  ∃ a status, a ∈ q ∧ werr a = None ∧ wpid a = ID t
    ∧ wstatus a = Some status ∧ StopSignal status = SIGTRAP.
Proof.
  revert w. induction q as [|a q IH]; intros w; [done|]. cbn.
  destruct (werr a) eqn:He; [done|].
  destruct (_ && _); [done|].
  destruct (Z.eqb_spec (wpid a) (ID t)) as [Hid|_].
  - destruct (wstatus a) as [status|] eqn:Hs; [|done].
    destruct (Z.eqb_spec (StopSignal status) SIGTRAP) as [Hsig|_].
    + intros _. exists a, status. split_and!; try done. left.
    + intros (a' & s' & Hin & H)%IH. exists a', s'. split; [by right|done].
  - intros (a' & s' & Hin & H)%IH. exists a', s'. split; [by right|done].
Qed.

(** A write of the deferred function returns nil or EIO. *)
Lemma PtracePokeData_result tid addr data w :
  (PtracePokeData tid addr data w).2 = None
  ∨ (PtracePokeData tid addr data w).2 = Some (Errno EIO).
Proof.
  unfold PtracePokeData. cbn. destruct (readBytes _ _ _); [by left|by right].
Qed.

Lemma restoreOriginal_result t entries err w :
  entries ≠ [] →
  (restoreOriginal t entries err w).2 = None
  ∨ (restoreOriginal t entries err w).2 = Some (Errno EIO).
Proof.
  revert err w. induction entries as [|[addr originalData] rest IH]; [done|].
  intros err w _. cbn.
  pose proof (PtracePokeData_result (ID t) addr originalData w) as Hpoke.
  destruct (PtracePokeData (ID t) addr originalData w) as [w1 err1].
  destruct rest as [|entry rest]; [exact Hpoke|]. by apply IH.
Qed.

(** The planting loop fails with EIO only, keeps what was saved, and
    saves something when it gets through a non-empty list. *)
Lemma plant_result t nextPcs originalDatas w :
  let r := (plant t nextPcs originalDatas w).2 in
  (originalDatas ≠ ∅ → r.1 ≠ ∅)
  ∧ (r.2 = Err (Errno EIO) ∨ (r.2 = Ok () ∧ (nextPcs ≠ [] → r.1 ≠ ∅))).
Proof.
  revert originalDatas w.
  induction nextPcs as [|nextPc rest IH]; intros originalDatas w; cbn.
  - split; [done|]. by right.
  - unfold readWriteMem, bind, check, PtracePeekData, PtracePokeData. cbn.
    destruct (readBytes (memory w) _ _) as [originalData|]; cbn; [|by split; [|left]].
    destruct (readBytes (memory w) _ (Z.of_nat _)); cbn; [|by split; [|left]].
    match goal with |- context [plant t rest ?m ?v] => destruct (IH m v) as [Hkeep Hres] end.
    assert (<[uintptr nextPc:=originalData]> originalDatas ≠ ∅) as Hne
      by apply insert_non_empty.
    split; [intros _; by apply Hkeep|].
    destruct Hres as [Hres|[Hres _]]; [by left|right]. split; [done|].
    intros _. by apply Hkeep.
Qed.

(** X16. Once the candidate addresses are resolved, [singleStep] does not
    return the process-exited condition, whatever the tracee does. *)
Lemma singleStep_never_ProcessExited Decode order t w nextPcs Pid Status :
  (∀ m, order m ≡ₚ map_to_list m) →
  (prepare Decode t w).2 = Ok nextPcs →
  (singleStep Decode order t w).2 ≠ Returned (Some (ErrProcessExited Pid Status)).
Proof.
  intros Horder. unfold prepare, bind, singleStep.
  destruct (Registers_ t w) as [w1 [regs| |]]; [|done..].
  destruct (resolvePC Decode t regs w1) as [w2 [pcs| |]] eqn:Hres; [|done..].
  intros [= ->].
  apply resolvePC_shape in Hres as (_ & Hhead & _).
  assert (nextPcs ≠ []) as Hpcs by (by destruct nextPcs).
  destruct (plant_result t nextPcs ∅ w2) as [_ Hplant].
  destruct (plant t nextPcs ∅ w2) as [w3 [originalDatas r]]. cbn [fst snd] in Hplant.
  assert (∀ body, originalDatas ≠ ∅ →
            (leave order t originalDatas body).2
            ≠ Returned (Some (ErrProcessExited Pid Status))) as Hleave.
  { intros [w4 [err| |]] Hne; cbn; [|by destruct (restoreOriginal _ _ _ _)|done].
    assert (order originalDatas ≠ []) as Hentries.
    { intros Hnil. apply Hne, map_to_list_empty_iff. symmetry.
      apply Permutation_nil_l. by rewrite <- (Horder originalDatas), Hnil. }
    pose proof (restoreOriginal_result t _ err w4 Hentries) as Hlast.
    destruct (restoreOriginal t (order originalDatas) err w4) as [w5 err5].
    cbn in *. destruct Hlast as [-> | ->]; done. }
  destruct Hplant as [-> | [-> Hne]].
  - destruct (decide (originalDatas = ∅)) as [->|Hne]; [|by apply Hleave].
    cbn. assert (order ∅ = []) as ->; [|done].
    apply Permutation_nil_r. by rewrite Horder, map_to_list_empty.
  - destruct (ptraceCont (ID t) 0 w3) as [w4 err]. by apply Hleave, Hne.
Qed.

(** C2. A step of [mov r0, r0] during which the process exits with
    status 3.  The owning process is notified, but the result is not the
    process-exited condition: it is what the last write of the deferred
    function returned, nil when the write went through and its errno when
    the memory is gone. *)
Theorem singleStep_exit_condition_lost
    (order : gmap Z (list byte) → list (Z * list byte))
    (Horder : ∀ m, order m ≡ₚ map_to_list m) :
  let m := Sample.storeWord 0x1000 0xE1A00000 (Sample.storeWord 0x1004 0xE1A00000 ∅) in
  let w := Sample.world m (Sample.regs0 0) [mkWait 100 (Some 0x0300) None None] in
  let v := Sample.world m (Sample.regs0 0) [mkWait 100 (Some 0x0300) None (Some ∅)] in
  let w1 := record (CCont 100 0)
              (plant Sample.t [0x1004] ∅ (prepare Sample.Decode Sample.t w).1).1 in
  (waitLoop Sample.t (events w1) w1).2 = Returned (Some (ErrProcessExited 100 3))
  ∧ (singleStep Sample.Decode order Sample.t w).2 = Returned None
  ∧ exited (singleStep Sample.Decode order Sample.t w).1 = true
  ∧ (singleStep Sample.Decode order Sample.t v).2 = Returned (Some (Errno EIO))
  ∧ exited (singleStep Sample.Decode order Sample.t v).1 = true.
Proof.
  intros m w v w1.
  assert (Hw : singleStep Sample.Decode order Sample.t w
               = singleStep Sample.Decode map_to_list Sample.t w).
  { apply singleStep_order_small; [done|]. vm_compute. lia. }
  assert (Hv : singleStep Sample.Decode order Sample.t v
               = singleStep Sample.Decode map_to_list Sample.t v).
  { apply singleStep_order_small; [done|]. vm_compute. lia. }
  rewrite Hw, Hv. vm_compute. split_and!; reflexivity.
Qed.

Lemma singleStep_exit_condition_lost_witness :
  let m := Sample.storeWord 0x1000 0xE1A00000 (Sample.storeWord 0x1004 0xE1A00000 ∅) in
  let w := Sample.world m (Sample.regs0 0) [mkWait 100 (Some 0x0300) None None] in
  (∀ m : gmap Z (list byte), map_to_list m ≡ₚ map_to_list m)
  ∧ (singleStep Sample.Decode map_to_list Sample.t w).2 = Returned None.
Proof.
  intros m w. split; [done|].
  exact (proj1 (proj2 (singleStep_exit_condition_lost map_to_list
                         (λ m, reflexivity _)))).
Defined.

(** C3. Three steps in which an error precedes the deferred function.
    (a) [bx lr] with lr = 0x2000, an unmapped address: planting fails at
    the second candidate with EIO, the first is written back, and the step
    returns nil.  (b) [mov r0, r0] with a failing resume: the step returns
    nil.  (c) [mov r0, r0] with a failing wait while the memory is gone:
    the step returns the errno of the write, not the error of the wait. *)
Theorem singleStep_error_overwritten
    (order : gmap Z (list byte) → list (Z * list byte))
    (Horder : ∀ m, order m ≡ₚ map_to_list m) :
  let bx := Sample.storeWord 0x1000 0xE12FFF1E (Sample.storeWord 0x1004 0xE1A00000 ∅) in
  let mov := Sample.storeWord 0x1000 0xE1A00000 (Sample.storeWord 0x1004 0xE1A00000 ∅) in
  let a := Sample.world bx (Sample.regs0 0x2000) [] in
  let b := mkWorld mov [] false []
             (mkAnswers (Ok (Sample.regsOf (Sample.regs0 0))) None 0 (Some (Errno 3))) in
  let c := Sample.world mov (Sample.regs0 0)
             [mkWait 0 None (Some (ErrOther 9)) (Some ∅)] in
  (plant Sample.t [0x1004; 0x2000] ∅ (prepare Sample.Decode Sample.t a).1).2.2
    = Err (Errno EIO)
  ∧ (singleStep Sample.Decode order Sample.t a).2 = Returned None
  ∧ (singleStep Sample.Decode order Sample.t b).2 = Returned None
  ∧ (singleStep Sample.Decode order Sample.t c).2 = Returned (Some (Errno EIO)).
Proof.
  intros bx mov a b c.
  rewrite !(singleStep_order_small Sample.Decode order) by (done || (vm_compute; lia)).
  vm_compute. split_and!; reflexivity.
Qed.

Lemma singleStep_error_overwritten_witness :
  let bx := Sample.storeWord 0x1000 0xE12FFF1E (Sample.storeWord 0x1004 0xE1A00000 ∅) in
  let a := Sample.world bx (Sample.regs0 0x2000) [] in
  (∀ m : gmap Z (list byte), map_to_list m ≡ₚ map_to_list m)
  ∧ (singleStep Sample.Decode map_to_list Sample.t a).2 = Returned None.
Proof.
  intros bx a. split; [done|].
  exact (proj1 (proj2 (singleStep_error_overwritten map_to_list (λ m, reflexivity _)))).
Defined.

(** C8. A step of [mov r0, r0] by thread 100 that sees a stop of thread
    101 and then a failing wait.  The stop of the other thread does not end
    the wait, and the wait loop ends with the error of the wait; but the
    step returns nil although no trap of thread 100 was seen. *)
Theorem singleStep_success_without_trap
    (order : gmap Z (list byte) → list (Z * list byte))
    (Horder : ∀ m, order m ≡ₚ map_to_list m) :
  let mov := Sample.storeWord 0x1000 0xE1A00000 (Sample.storeWord 0x1004 0xE1A00000 ∅) in
  let other := mkWait 101 (Some 0x137F) None None in
  let failing := mkWait 0 None (Some (Errno 4)) None in
  let w := Sample.world mov (Sample.regs0 0) [other; failing] in
  let w1 := record (CCont 100 0)
              (plant Sample.t [0x1004] ∅ (prepare Sample.Decode Sample.t w).1).1 in
  existsb (isTrapOf 100) (events w) = false
  ∧ (waitLoop Sample.t (events w1) w1).2 = Returned (Some (Errno 4))
  ∧ (singleStep Sample.Decode order Sample.t w).2 = Returned None
  ∧ events (singleStep Sample.Decode order Sample.t w).1 = [].
Proof.
  intros mov other failing w w1.
  rewrite !(singleStep_order_small Sample.Decode order) by (done || (vm_compute; lia)).
  vm_compute. split_and!; reflexivity.
Qed.

Lemma singleStep_success_without_trap_witness :
  let mov := Sample.storeWord 0x1000 0xE1A00000 (Sample.storeWord 0x1004 0xE1A00000 ∅) in
  let w := Sample.world mov (Sample.regs0 0)
             [mkWait 101 (Some 0x137F) None None; mkWait 0 None (Some (Errno 4)) None] in
  (∀ m : gmap Z (list byte), map_to_list m ≡ₚ map_to_list m)
  ∧ (singleStep Sample.Decode map_to_list Sample.t w).2 = Returned None.
Proof.
  intros mov w. split; [done|].
  exact (proj1 (proj2 (proj2
    (singleStep_success_without_trap map_to_list (λ m, reflexivity _))))).
Defined.

(** ** Load into the program counter *)

(** C6. [ldr pc, [r1, r2, asr #1]] with r1 = 0x3000 and r2 = -8: the
    architecture loads from 0x3000 - 4, where the word 0x2000 is stored;
    [resolvePC] shifts zeros in, peeks at 0x80002FFC and fails.
    [ldr pc, [r1, r2, ror #1]] with r2 = 0x11: the architecture loads from
    0x3000 + 0x80000008; [resolvePC] rotates within 64 bits and reads the
    word at 0x3008. *)
Theorem resolvePC_load_shift_divergence :
  let asr := armasm.mkMem 1 armasm.AddrOffset 1 2 armasm.ShiftRightSigned 1 0 in
  let ror := armasm.mkMem 1 armasm.AddrOffset 1 2 armasm.RotateRight 1 0 in
  let ra := Sample.regsOf (Sample.regs12 0x3000 0xFFFFFFF8) in
  let rr := Sample.regsOf (Sample.regs12 0x3000 0x11) in
  let ma := Sample.storeWord 0x1000 0xE791F0C2 (Sample.storeWord 0x2FFC 0x2000 ∅) in
  let mr := Sample.storeWord 0x1000 0xE791F0E2
              (Sample.storeWord 0x3008 0x5000 (Sample.storeWord 0x80003008 0x2000 ∅)) in
  let wa := Sample.world ma (Sample.regs12 0x3000 0xFFFFFFF8) [] in
  let wr := Sample.world mr (Sample.regs12 0x3000 0x11) [] in
  archLoadAddress asr false 0x3000 0xFFFFFFF8 = 0x2FFC
  ∧ loadWord (memory wa) 0x2FFC = Some 0x2000
  ∧ (loadAddress ra asr wa).2 = Ok 0x80002FFC
  ∧ (resolvePC Sample.Decode Sample.t ra wa).2 = Err (Errno EIO)
  ∧ archLoadAddress ror false 0x3000 0x11 = 0x80003008
  ∧ loadWord (memory wr) 0x80003008 = Some 0x2000
  ∧ uintptr <$> (match (loadAddress rr ror wr).2 with Ok a => Some a | _ => None end)
    = Some 0x3008
  ∧ (resolvePC Sample.Decode Sample.t rr wr).2 = Ok [0x1004; 0x5000].
Proof. vm_compute. split_and!; reflexivity. Qed.

(** ** What the deferred function restores *)

Lemma span_S a n : span a (S n) = uintptr a :: span (a + 1) n.
Proof.
  unfold span. cbn [seq fmap list_fmap]. rewrite Z.add_0_r. f_equal.
  rewrite <- fmap_S_seq, <- list_fmap_compose. apply list_fmap_ext.
  intros _ j _. cbn. f_equal. lia.
Qed.

Lemma readBytesN_S_inv m a n b d :
  readBytesN m a (S n) = Some (b :: d) →
  m !! uintptr a = Some b ∧ readBytesN m (a + 1) n = Some d.
Proof.
  cbn. destruct (m !! uintptr a); [|done].
  destruct (readBytesN m (a + 1) n); [|done]. by intros [= -> ->].
Qed.

Lemma readBytesN_length m a n d : readBytesN m a n = Some d → length d = n.
Proof.
  revert a d. induction n as [|n IH]; intros a d; cbn.
  - by intros [= <-].
  - destruct (m !! uintptr a); [|done].
    destruct (readBytesN m (a + 1) n) eqn:E; [|done].
    intros [= <-]. cbn. f_equal. by eapply IH.
Qed.

Lemma readBytesN_ext m m' a n :
  (∀ k, k ∈ span a n → m !! k = m' !! k) → readBytesN m a n = readBytesN m' a n.
Proof.
  revert a. induction n as [|n IH]; intros a Hagree; [done|]. cbn.
  rewrite span_S in Hagree.
  rewrite (Hagree (uintptr a)) by left.
  rewrite (IH (a + 1)); [done|]. intros k Hk. apply Hagree. by right.
Qed.

Lemma readBytesN_mapped m m' a n d :
  readBytesN m a n = Some d → (∀ k, is_Some (m !! k) → is_Some (m' !! k)) →
  is_Some (readBytesN m' a n).
Proof.
  intros Hd Hmapped. revert a d Hd. induction n as [|n IH]; intros a d; cbn; [by eauto|].
  destruct (m !! uintptr a) as [b|] eqn:Hb; [|done].
  destruct (readBytesN m (a + 1) n) as [bs|] eqn:Hbs; [|done]. intros _.
  destruct (Hmapped (uintptr a)) as [b' ->]; [by eauto|].
  destruct (IH _ _ Hbs) as [bs' ->]. by eauto.
Qed.

Lemma writeBytes_mapped m a data k :
  is_Some (m !! k) → is_Some (writeBytes m a data !! k).
Proof.
  revert m a. induction data as [|b rest IH]; intros m a Hk; [done|]. cbn.
  apply IH. rewrite lookup_insert. case_decide; [by eauto|done].
Qed.

Lemma writeBytes_other m a data k :
  k ∉ span a (length data) → writeBytes m a data !! k = m !! k.
Proof.
  revert m a. induction data as [|b rest IH]; intros m a Hk; [done|].
  cbn [length] in Hk. rewrite span_S in Hk. apply not_elem_of_cons in Hk as [Hne Hk].
  cbn. rewrite IH by done. by rewrite lookup_insert_ne.
Qed.

(** Writing back bytes that were saved from [m0] makes the memory agree
    with [m0] on their span, and keeps every agreement there was. *)
Lemma writeBytes_saved m m0 a data k :
  readBytesN m0 a (length data) = Some data →
  k ∈ span a (length data) ∨ m !! k = m0 !! k →
  writeBytes m a data !! k = m0 !! k.
Proof.
  revert m a. induction data as [|b rest IH]; intros m a Hsaved Hk.
  - cbn in *. destruct Hk as [Hk|Hk]; [|done]. by apply elem_of_nil in Hk.
  - cbn [length] in *. apply readBytesN_S_inv in Hsaved as [Hb Hrest].
    rewrite span_S in Hk. cbn. apply IH; [done|].
    destruct (decide (k = uintptr a)) as [->|Hne].
    + right. by rewrite lookup_insert_eq.
    + rewrite lookup_insert_ne by done.
      destruct Hk as [Hk|Hk]; [|by right].
      apply elem_of_cons in Hk as [?|?]; [done|by left].
Qed.

Lemma readBytes_of_nat m a n : readBytes m a (Z.of_nat n) = readBytesN m a n.
Proof. unfold readBytes. by rewrite Nat2Z.id. Qed.

(** The planting loop keeps the tracee [instrumented] when the addresses
    it visits are apart from each other and from those saved before. *)
Lemma plant_instrumented t m0 nextPcs originalDatas w :
  let n := length (BreakpointInstruction (arch t)) in
  instrumented n m0 (memory w) originalDatas →
  (∀ pc a d, pc ∈ nextPcs → originalDatas !! a = Some d →
     Forall (λ k, k ∉ span a n) (span (uintptr pc) n)) →
  apart n (uintptr <$> nextPcs) →
  instrumented n m0 (memory (plant t nextPcs originalDatas w).1)
               (plant t nextPcs originalDatas w).2.1
  ∧ events (plant t nextPcs originalDatas w).1 = events w.
Proof.
  intros n. revert originalDatas w.
  induction nextPcs as [|nextPc rest IH]; intros od w Hinv Hold Hapart; [done|].
  cbn [plant]. unfold readWriteMem, bind, check, PtracePeekData, PtracePokeData.
  cbn [memory record]. fold n. rewrite readBytes_of_nat.
  destruct Hinv as (Hmapped & Hdiff & Hsaved).
  assert (readBytesN (memory w) (uintptr nextPc) n
          = readBytesN m0 (uintptr nextPc) n) as Hsame.
  { apply readBytesN_ext. intros k Hk.
    destruct (Hdiff k) as [?|(a & d & Had & Hka)]; [done|].
    specialize (Hold nextPc a d ltac:(left) Had).
    rewrite Forall_forall in Hold. by destruct (Hold k Hk). }
  destruct (readBytesN (memory w) (uintptr nextPc) n) as [originalData|] eqn:Hpeek;
    [|done].
  cbn [memory record]. rewrite readBytes_of_nat. fold n. rewrite Hpeek.
  cbn [fmap list_fmap] in Hapart. destruct Hapart as [Hfirst Hapart].
  unfold ret. cbv beta iota.
  match goal with |- context [plant t rest ?od' ?w'] =>
    destruct (IH od' w') as [Hinv' Hev']; [| | |by split] end; [|clear IH..].
  - cbn [memory setMemory record]. split_and!.
    + intros k Hk. by apply writeBytes_mapped, Hmapped.
    + intros k. destruct (decide (k ∈ span (uintptr nextPc) n)) as [Hin|Hout].
      * right. exists (uintptr nextPc), originalData.
        by rewrite lookup_insert_eq.
      * rewrite writeBytes_other by done.
        destruct (Hdiff k) as [?|(a & d & Had & Hka)]; [by left|right].
        destruct (decide (a = uintptr nextPc)) as [->|Hne].
        -- exists (uintptr nextPc), originalData. by rewrite lookup_insert_eq.
        -- exists a, d. by rewrite lookup_insert_ne.
    + intros a d. rewrite lookup_insert. case_decide as Ha.
      * intros [= <-]. by rewrite <- Ha, <- Hsame.
      * apply Hsaved.
  - intros pc a d Hpc. rewrite lookup_insert. case_decide as Ha.
    + intros _. subst a. rewrite Forall_forall in Hfirst.
      specialize (Hfirst (uintptr pc) ltac:(by apply list_elem_of_fmap_2)).
      rewrite Forall_forall in Hfirst. apply Forall_forall. intros k Hk Hk'.
      by apply (Hfirst k Hk').
    + intros Had. apply (Hold pc a d); [by right|done].
  - done.
Qed.

(** Writing the saved bytes back, in any order: every byte that agreed
    with [m0] or lies in the span of a written entry agrees with [m0]
    afterwards. *)
Lemma restoreOriginal_restores t n m0 entries err w :
  (∀ a d, (a, d) ∈ entries → readBytesN m0 a n = Some d) →
  (∀ k, is_Some (m0 !! k) → is_Some (memory w !! k)) →
  ∀ k, memory w !! k = m0 !! k ∨ (∃ a d, (a, d) ∈ entries ∧ k ∈ span a n) →
       memory (restoreOriginal t entries err w).1 !! k = m0 !! k.
Proof.
  revert err w. induction entries as [|[a d] rest IH]; intros err w Hsaved Hmapped k Hk.
  - cbn. destruct Hk as [?|(a & d & Hin & _)]; [done|]. by apply elem_of_nil in Hin.
  - cbn [restoreOriginal]. unfold PtracePokeData. cbn [memory record].
    pose proof (Hsaved a d ltac:(left)) as Had.
    pose proof (readBytesN_length _ _ _ _ Had) as Hlen.
    rewrite readBytes_of_nat, Hlen.
    destruct (readBytesN_mapped _ _ _ _ _ Had Hmapped) as [d' ->].
    apply IH.
    + intros a' d0 Hin. apply Hsaved. by right.
    + intros k' Hk'. cbn [memory setMemory record]. by apply writeBytes_mapped, Hmapped.
    + cbn [memory setMemory record].
      destruct Hk as [Hk|(a' & d'' & [[= -> ->]|Hin]%elem_of_cons & Hspan)].
      * left. apply writeBytes_saved; [by rewrite Hlen|by right].
      * left. apply writeBytes_saved; [by rewrite Hlen|left; by rewrite Hlen].
      * right. by exists a', d''.
Qed.

(** The wait loop leaves the memory as it is when the tracee does. *)
Lemma waitLoop_memory t q w :
  Forall (λ a, wmem a = None) q → memory (waitLoop t q w).1 = memory w.
Proof.
  intros Hq. revert w. induction Hq as [|a q Ha Hq IH]; intros w; [done|].
  cbn [waitLoop]. unfold arrive. rewrite Ha.
  destruct (werr a); [done|]. destruct (_ && _); [done|].
  destruct (wpid a =? ID t); [|by rewrite IH].
  destruct (wstatus a); [|done].
  destruct (_ =? SIGTRAP); [done|by rewrite IH].
Qed.

(** X15. A step that returns leaves every byte of the tracee's memory as
    it found it, in whatever order the saved bytes are written back, when
    the candidate addresses have no byte in common and the tracee itself
    does not change its memory. *)
Lemma singleStep_restores_apart Decode order t w nextPcs :
  (∀ m, order m ≡ₚ map_to_list m) →
  (prepare Decode t w).2 = Ok nextPcs →
  apart (length (BreakpointInstruction (arch t))) (uintptr <$> nextPcs) →
  Forall (λ a, wmem a = None) (events w) →
  (singleStep Decode order t w).2 ≠ Blocked →
  memory (singleStep Decode order t w).1 = memory w.
Proof.
  intros Horder Hprep Hapart Hquiet.
  pose proof (readOnly_prepare Decode t w) as (Hmem & Hev & _).
  revert Hprep Hmem Hev. unfold prepare, bind, singleStep.
  destruct (Registers_ t w) as [w1 [regs| |]]; [|done..].
  destruct (resolvePC Decode t regs w1) as [w2 [pcs| |]]; [|done..].
  cbn [fst snd]. intros [= ->] Hmem Hev.
  set (n := length (BreakpointInstruction (arch t))) in *.
  destruct (plant_instrumented t (memory w) nextPcs ∅ w2) as [Hinv Hev3].
  { rewrite Hmem. split_and!; [done|by left|]. intros a d. by rewrite lookup_empty. }
  { intros pc a d _. by rewrite lookup_empty. }
  { done. }
  destruct (plant_result t nextPcs ∅ w2) as [_ Hr].
  destruct (plant t nextPcs ∅ w2) as [w3 [originalDatas r]].
  cbn [fst snd] in Hinv, Hev3, Hr.
  destruct Hinv as (Hmapped & Hdiff & Hsaved).
  assert (∀ body, memory body.1 = memory w3 →
            (leave order t originalDatas body).2 ≠ Blocked →
            memory (leave order t originalDatas body).1 = memory w) as Hleave.
  { intros [w4 [err| |]] Hm4 Hnb; [| |by destruct Hnb]; clear Hnb; cbn [fst snd] in *.
    all: unfold leave.
    all: match goal with |- context [restoreOriginal ?th ?l ?e ?v] =>
           pose proof (restoreOriginal_restores th n (memory w) l e v) as Hres;
           destruct (restoreOriginal th l e v) as [w5 err5] end.
    all: cbn [fst snd] in *; apply map_eq; intros k; apply Hres.
    all: try rewrite Hm4; try exact Hmapped.
    all: try (intros a d Hin; apply Hsaved, elem_of_map_to_list; by rewrite <- Horder).
    all: destruct (Hdiff k) as [?|(a & d & Had & Hk)]; [by left|right].
    all: exists a, d; split; [|done].
    all: rewrite Horder; apply elem_of_map_to_list; assumption. }
  destruct r as [[]|e|]; [| |by destruct Hr as [?|[? _]]].
  - unfold ptraceCont. cbn [fst snd]. destruct (contAnswer (answers w3)).
    + intros Hnb. by apply Hleave.
    + intros Hnb. apply Hleave; [|done]. cbn [awaitTrap].
      rewrite waitLoop_memory; [done|]. cbn [events record]. by rewrite Hev3, Hev.
  - intros Hnb. by apply Hleave.
Qed.

Lemma singleStep_restores_apart_witness :
  let m := Sample.storeWord 0x1000 0xE12FFF1E
             (Sample.storeWord 0x1004 0xE1A00000 (Sample.storeWord 0x2000 0xE1A00000 ∅)) in
  let w := Sample.world m (Sample.regs0 0x2000) [Sample.trapOf 100] in
  (singleStep Sample.Decode map_to_list Sample.t w).2 = Returned None
  ∧ memory (singleStep Sample.Decode map_to_list Sample.t w).1 = memory w.
Proof.
  intros m w. split; [reflexivity|].
  apply (singleStep_restores_apart _ _ _ _ [0x1004; 0x2000]).
  - intros ?. reflexivity.
  - vm_compute. reflexivity.
  - cbn [apart fmap list_fmap]. apply (bool_decide_unpack _). by vm_compute.
  - repeat constructor.
  - vm_compute. congruence.
Defined.

(** ** Where the load address is the architecture's *)

Lemma uint32_uint64 x : uint32 (uint64 x) = uint32 x.
Proof. apply uintptr_uint64. Qed.

Lemma uint32_add_r a b : uint32 (a + uint32 b) = uint32 (a + b).
Proof. unfold uint32, uint. by rewrite Zplus_mod_idemp_r. Qed.

Lemma uint32_sub_r a b : uint32 (a - uint32 b) = uint32 (a - b).
Proof. unfold uint32, uint. by rewrite Zminus_mod_idemp_r. Qed.

Lemma uint32_add_uint64 a b : uint32 (a + uint64 b) = uint32 (a + b).
Proof. by rewrite <- uint32_add_r, uint32_uint64, uint32_add_r. Qed.

Lemma uint32_sub_uint64 a b : uint32 (a - uint64 b) = uint32 (a - b).
Proof. by rewrite <- uint32_sub_r, uint32_uint64, uint32_sub_r. Qed.

Lemma int64_small x : - 2 ^ 63 ≤ x < 2 ^ 63 → int64 x = x.
Proof. intros H. unfold int64, sint. rewrite Z.mod_small; lia. Qed.

(** With an immediate offset, a left shift or a logical right shift of
    the index, or no offset at all, the address [resolvePC] peeks at is the
    effective address of the architecture. *)
Lemma loadAddress_arch regs arg w carry base idx :
  Get regs (armasm.Base arg) = Ok base →
  Get regs (armasm.Index arg) = Ok idx →
  0 ≤ base < 2 ^ 32 →
  - 2 ^ 15 ≤ armasm.Offset arg < 2 ^ 15 →
  armasm.Shift_ arg = armasm.ShiftLeft ∨ armasm.Shift_ arg = armasm.ShiftRight
  ∨ armasm.Sign arg = 0 →
  ∃ pc, loadAddress regs arg w = (w, Ok pc)
        ∧ uintptr pc = archLoadAddress arg carry base idx.
Proof.
  intros Hbase Hidx Hb Hoff Hshift. unfold loadAddress, archLoadAddress.
  rewrite (bind_lift_Ok _ _ _ _ Hbase).
  assert (uintptr base = base) as Hsmall by (by apply uint32_small).
  destruct (armasm.Mode arg); try (by exists base).
  all: destruct (Z.eqb_spec (armasm.Sign arg) 0) as [Hs|Hs]; cbn [negb].
  all: try (eexists; split; [reflexivity|];
            rewrite !int64_small by lia; by apply uintptr_uint64).
  all: rewrite (bind_lift_Ok _ _ _ _ Hidx).
  all: destruct Hshift as [Hk|[Hk|?]]; [| |done].
  all: unfold shiftIndex, archShift; rewrite Hk.
  all: rewrite ?(bool_decide_eq_true_2 (armasm.ShiftLeft = armasm.ShiftLeft)) by done.
  all: rewrite ?(bool_decide_eq_false_2 (armasm.ShiftRight = armasm.ShiftLeft)) by done.
  all: cbn [negb orb].
  all: destruct (armasm.Sign arg <? 0).
  all: try (destruct (armasm.Count arg =? 0) eqn:Hc; cbn [negb];
            [apply Z.eqb_eq in Hc; rewrite Hc, Z.shiftl_0_r|]).
  all: eexists; (split; [reflexivity|]).
  all: change uintptr with uint32; rewrite uint32_uint64.
  all: rewrite ?uint32_add_uint64, ?uint32_sub_uint64, ?uint32_add_r, ?uint32_sub_r.
  all: reflexivity.
Qed.

(** * Further properties of the code *)

(** ** [restoreRegisters] beyond its contract *)

(** X1. The floating-point block is written exactly when the general
    write answered [syscall.Errno(0)] and a non-empty block was saved, and
    what is written is the saved block.  A general write that answers nil
    is followed by no floating-point write. *)
Theorem restoreRegisters_fp_write (t : nativeThread) (sr : ARMRegisters) (w : World) :
  let w' := (restoreRegisters t sr w).1 in
  (∀ tid block, CSetFpRegs tid block ∈ issued w w' ↔
     tid = ID t ∧ setGRegsAnswer (answers w) = Some (Errno 0)
     ∧ Fpregset sr = Some block ∧ block ≠ [])
  ∧ (setGRegsAnswer (answers w) = None →
       issued w w' = [CSetGRegs (ID t) (Regs sr)]
       ∧ (restoreRegisters t sr w).2 = Returned None)
  ∧ memory w' = memory w.
Proof.
  unfold restoreRegisters, ptraceSetGRegs, ptraceSetFpRegset.
  destruct w as [m q x tr [ra ga fa ca]]; cbn [answers setGRegsAnswer setFpRegsAnswer].
  destruct (decide (ga = Some (Errno 0))) as [->|Hne].
  - rewrite bool_decide_eq_false_2 by (intros H; by apply H).
    destruct sr as [rs [[|b fp]|]]; cbn [Fpregset Regs fst snd memory record].
    all: rewrite ?(issued_app _ _ [CSetGRegs (ID t) rs]) by done.
    all: rewrite ?(issued_app _ _ [CSetGRegs (ID t) rs; CSetFpRegs (ID t) (b :: fp)])
      by (cbn; by rewrite <- app_assoc).
    all: split_and!; try done.
    all: intros tid block; rewrite ?elem_of_cons, ?elem_of_nil; split.
    all: try (intros [?|[?|?]]; simplify_eq; done).
    all: try (intros [?|?]; simplify_eq; done).
    all: intros (? & ? & ? & ?); simplify_eq; try done. right; by left.
  - rewrite bool_decide_eq_true_2 by done.
    cbn [fst snd memory record]. rewrite (issued_app _ _ [CSetGRegs (ID t) (Regs sr)]) by done.
    split_and!; try done.
    + intros tid block. rewrite elem_of_cons, elem_of_nil. split.
      * intros [?|?]; simplify_eq; done.
      * intros (_ & ? & _); done.
    + intros ->. split; [done|]. by rewrite bool_decide_eq_false_2.
Qed.

(** X2. [restoreRegisters] panics exactly when the general write answered
    [syscall.Errno(0)] and the saved block is an empty slice that is not
    nil; the general registers have been written by then, and nothing
    else. *)
Theorem restoreRegisters_panics_iff (t : nativeThread) (sr : ARMRegisters) (w : World) :
  ((restoreRegisters t sr w).2 = Panicked ↔
     setGRegsAnswer (answers w) = Some (Errno 0) ∧ Fpregset sr = Some [])
  ∧ ((restoreRegisters t sr w).2 = Panicked →
       issued w (restoreRegisters t sr w).1 = [CSetGRegs (ID t) (Regs sr)])
  ∧ (restoreRegisters t sr w).2 ≠ Blocked.
Proof.
  unfold restoreRegisters, ptraceSetGRegs, ptraceSetFpRegset.
  destruct w as [m q x tr [ra ga fa ca]]; cbn [answers setGRegsAnswer setFpRegsAnswer].
  destruct (decide (ga = Some (Errno 0))) as [->|Hne].
  - rewrite bool_decide_eq_false_2 by (intros H; by apply H).
    destruct sr as [rs [[|b fp]|]]; cbn [Fpregset Regs fst snd].
    all: rewrite ?(issued_app _ _ [CSetGRegs (ID t) rs]) by done.
    all: split_and!; try done.
    all: split; try done; intros [_ ?]; done.
  - rewrite bool_decide_eq_true_2 by done. cbn [fst snd].
    split_and!; try done. split; [done|]. by intros [? _].
Qed.

(** ** The wait loop *)

Lemma waitLoop_other_thread_witness :
  let a := mkWait 101 (Some 0x137F) None None in
  let w := Sample.world ∅ (Sample.regs0 0) [] in
  wpid a ≠ ID Sample.t
  ∧ (waitLoop Sample.t [a; Sample.trapOf 100] w).2 = Returned None.
Proof.
  intros a w. split; [by vm_compute|].
  rewrite (waitLoop_other_thread Sample.t a [Sample.trapOf 100] w);
    [reflexivity|reflexivity|by vm_compute|by vm_compute].
Defined.

Lemma waitLoop_nil_trap_witness :
  let w := Sample.world ∅ (Sample.regs0 0) [] in
  let q := [mkWait 101 (Some 0x137F) None None; Sample.trapOf 100] in
  waitLoop Sample.t q w = ((waitLoop Sample.t q w).1, Returned None)
  ∧ ∃ a status, a ∈ q ∧ werr a = None ∧ wpid a = ID Sample.t
      ∧ wstatus a = Some status ∧ StopSignal status = SIGTRAP.
Proof.
  intros w q.
  assert (H : waitLoop Sample.t q w = ((waitLoop Sample.t q w).1, Returned None))
    by reflexivity.
  split; [exact H|]. exact (waitLoop_nil_trap Sample.t q w _ H).
Defined.

(** X5. The wait loop never returns exactly when no pending event ends
    the wait: every event is then an event of another thread, or a stop of
    the stepped thread by a signal other than SIGTRAP, or its exit when it
    is not the process leader. *)
Theorem waitLoop_blocked_iff (t : nativeThread) (q : list WaitAnswer) (w : World) :
  (waitLoop t q w).2 = Blocked ↔ existsb (endsWait t) q = false.
Proof.
  revert w. induction q as [|a q IH]; intros w; [done|].
  cbn [waitLoop existsb]. unfold endsWait at 1.
  destruct (werr a); [done|].
  destruct (_ && (wpid a =? pid t)); [done|]. cbn [orb].
  destruct (wpid a =? ID t); cbn [andb]; [|apply IH].
  destruct (wstatus a) as [status|]; [|done].
  destruct (StopSignal status =? SIGTRAP); [done|apply IH].
Qed.

(** An event that does not end the wait is passed over. *)
Lemma waitLoop_pass t b q w :
  endsWait t b = false →
  waitLoop t (b :: q) w = waitLoop t q (arrive b (record (CWait (ID t)) (setEvents q w))).
Proof.
  intros Hb. cbn [waitLoop]. unfold endsWait in Hb.
  destruct (werr b); [done|].
  destruct (_ && (wpid b =? pid t)); [done|]. cbn [orb] in Hb.
  destruct (wpid b =? ID t); cbn [andb] in Hb; [|done].
  destruct (wstatus b) as [status|]; [|done]. by rewrite Hb.
Qed.

(** The result of the wait loop does not depend on the world. *)
Lemma waitLoop_result_any t q w v : (waitLoop t q w).2 = (waitLoop t q v).2.
Proof.
  revert w v. induction q as [|a q IH]; intros w v; [done|]. cbn [waitLoop].
  destruct (werr a); [done|].
  destruct (_ && (wpid a =? pid t)); [done|].
  destruct (wpid a =? ID t); [|apply IH].
  destruct (wstatus a) as [status|]; [|done].
  destruct (StopSignal status =? SIGTRAP); [done|apply IH].
Qed.

(** X6. The wait loop stops at the first event that ends the wait: the
    events before it play no part in the result, and the events after it
    stay pending. *)
Theorem waitLoop_first_end (t : nativeThread) (l1 l2 : list WaitAnswer)
    (a : WaitAnswer) (w : World) :
  existsb (endsWait t) l1 = false →
  endsWait t a = true →
  (waitLoop t (l1 ++ a :: l2) w).2 = (waitLoop t [a] w).2
  ∧ (waitLoop t (l1 ++ a :: l2) w).2 ≠ Blocked
  ∧ events (waitLoop t (l1 ++ a :: l2) w).1 = l2.
Proof.
  intros Hl1 Ha. revert w. induction l1 as [|b l1 IH]; intros w.
  - split; [|split].
    + cbn [app waitLoop]. unfold endsWait in Ha. destruct (werr a); [done|].
      destruct (_ && (wpid a =? pid t)); [done|]. cbn [orb] in Ha.
      destruct (wpid a =? ID t); [|done]. cbn [andb] in Ha.
      destruct (wstatus a) as [status|]; [|done]. by rewrite Ha.
    + intros Hblocked%waitLoop_blocked_iff. cbn in Hblocked.
      by rewrite Ha in Hblocked.
    + cbn [app waitLoop]. unfold endsWait in Ha.
      destruct (werr a); [by unfold arrive; destruct (wmem a)|].
      destruct (_ && (wpid a =? pid t));
        [by unfold arrive, postExit; destruct (wmem a)|]. cbn [orb] in Ha.
      destruct (wpid a =? ID t); [|done]. cbn [andb] in Ha.
      destruct (wstatus a) as [status|]; [|by unfold arrive; destruct (wmem a)].
      rewrite Ha. by unfold arrive; destruct (wmem a).
  - cbn [existsb] in Hl1. apply orb_false_iff in Hl1 as [Hb Hl1].
    cbn [app]. rewrite (waitLoop_pass _ _ _ _ Hb).
    match goal with |- context [waitLoop t (l1 ++ _) ?v] =>
      destruct (IH Hl1 v) as (H1 & H2 & H3) end.
    split; [|by split]. by rewrite H1, (waitLoop_result_any t [a] _ w).
Qed.

Lemma waitLoop_first_end_witness :
  let other := mkWait 101 (Some 0x137F) None None in
  let later := mkWait 100 (Some 0x0B7F) None None in
  let w := Sample.world ∅ (Sample.regs0 0) [] in
  existsb (endsWait Sample.t) [other] = false
  ∧ (waitLoop Sample.t [other; Sample.trapOf 100; later] w).2 = Returned None
  ∧ events (waitLoop Sample.t [other; Sample.trapOf 100; later] w).1 = [later].
Proof.
  intros other later w.
  assert (H1 : existsb (endsWait Sample.t) [other] = false) by reflexivity.
  assert (H2 : endsWait Sample.t (Sample.trapOf 100) = true) by reflexivity.
  destruct (waitLoop_first_end Sample.t [other] [later] (Sample.trapOf 100) w H1 H2)
    as (Hr & _ & He).
  split; [exact H1|]. split; [|exact He].
  exact (eq_trans Hr (eq_refl (Returned None))).
Defined.

(** X7. When the first event that ends the wait reports the exit of the
    process, the loop notifies the process object and ends with the
    process-exited condition for the process id; its status is the exit
    status of the event, and 0 when the event has no status. *)
Theorem waitLoop_process_exit (t : nativeThread) (l1 l2 : list WaitAnswer)
    (a : WaitAnswer) (w : World) :
  existsb (endsWait t) l1 = false →
  isProcessExit t a = true →
  (waitLoop t (l1 ++ a :: l2) w).2
    = Returned (Some (ErrProcessExited (pid t) (exitStatusOf a)))
  ∧ exited (waitLoop t (l1 ++ a :: l2) w).1 = true
  ∧ last (trace (waitLoop t (l1 ++ a :: l2) w).1) = Some CPostExit.
Proof.
  intros Hl1 Ha. revert w. induction l1 as [|b l1 IH]; intros w.
  - cbn [app waitLoop]. unfold isProcessExit in Ha.
    apply andb_true_iff in Ha as [[He Hs]%andb_true_iff Hp].
    apply bool_decide_eq_true in He. rewrite He, Hs, Hp. cbn [andb fst snd].
    split_and!.
    + unfold exitStatusOf, ExitStatus. destruct (wstatus a); [|done]. by rewrite Hs.
    + by unfold arrive; destruct (wmem a).
    + unfold postExit, record. cbn [trace]. by rewrite last_snoc.
  - cbn [existsb] in Hl1. apply orb_false_iff in Hl1 as [Hb Hl1].
    cbn [app]. rewrite (waitLoop_pass _ _ _ _ Hb). by apply IH.
Qed.

Lemma waitLoop_process_exit_witness :
  let other := mkWait 101 (Some 0x137F) None None in
  let gone := mkWait 100 (Some 0x0300) None None in
  let w := Sample.world ∅ (Sample.regs0 0) [] in
  isProcessExit Sample.t gone = true
  ∧ (waitLoop Sample.t [other; gone] w).2
    = Returned (Some (ErrProcessExited 100 3)).
Proof.
  intros other gone w.
  assert (H1 : existsb (endsWait Sample.t) [other] = false) by reflexivity.
  assert (H2 : isProcessExit Sample.t gone = true) by reflexivity.
  split; [exact H2|].
  exact (proj1 (waitLoop_process_exit Sample.t [other] [] gone w H1 H2)).
Defined.

(** X8. Without an event that reports the exit of the process, the wait
    loop does not notify the process object: the exited flag stays as it
    was and no notification is issued. *)
Theorem waitLoop_no_exit_notice (t : nativeThread) (q : list WaitAnswer) (w : World) :
  existsb (isProcessExit t) q = false →
  exited (waitLoop t q w).1 = exited w
  ∧ forallb (λ c, isWait c) (issued w (waitLoop t q w).1) = true.
Proof.
  intros Hq.
  assert (exited (waitLoop t q w).1 = exited w
          ∧ ∃ l, trace (waitLoop t q w).1 = trace w ++ l ∧ forallb isWait l = true)
    as (Hx & l & Ht & Hl); [|by rewrite (issued_app _ _ _ Ht)].
  revert w Hq. induction q as [|a q IH]; intros w Hq.
  - split; [done|]. exists []. by rewrite app_nil_r.
  - cbn [existsb] in Hq. apply orb_false_iff in Hq as [Ha Hq].
    assert (∀ v : World, exited (arrive a v) = exited v ∧ trace (arrive a v) = trace v)
      as Harrive by (intros v; unfold arrive; by destruct (wmem a)).
    set (v := record (CWait (ID t)) (setEvents q w)).
    assert (exited (arrive a v) = exited w
            ∧ trace (arrive a v) = trace w ++ [CWait (ID t)]) as [Hx1 Ht1].
    { destruct (Harrive v) as [-> ->]. done. }
    assert (exited (waitLoop t q (arrive a v)).1 = exited w
            ∧ ∃ l, trace (waitLoop t q (arrive a v)).1 = trace w ++ l
                   ∧ forallb isWait l = true) as Hrec.
    { destruct (IH (arrive a v) Hq) as (Hx & l & Ht & Hl).
      split; [by rewrite Hx|]. exists (CWait (ID t) :: l).
      by rewrite Ht, Ht1, <- app_assoc. }
    assert (exited (arrive a v) = exited w
            ∧ ∃ l, trace (arrive a v) = trace w ++ l ∧ forallb isWait l = true) as Hnow.
    { split; [done|]. by exists [CWait (ID t)]. }
    cbn [waitLoop]. fold v. unfold isProcessExit in Ha.
    destruct (werr a); [done|].
    rewrite bool_decide_eq_true_2, andb_true_l in Ha by done. rewrite Ha.
    destruct (wpid a =? ID t); [|done].
    destruct (wstatus a) as [status|]; [|done].
    by destruct (StopSignal status =? SIGTRAP).
Qed.

Lemma waitLoop_no_exit_notice_witness :
  let q := [mkWait 101 (Some 0x137F) None None; Sample.trapOf 100] in
  let w := Sample.world ∅ (Sample.regs0 0) [] in
  existsb (isProcessExit Sample.t) q = false
  ∧ exited (waitLoop Sample.t q w).1 = false.
Proof.
  intros q w.
  assert (H : existsb (isProcessExit Sample.t) q = false) by reflexivity.
  split; [exact H|].
  exact (proj1 (waitLoop_no_exit_notice Sample.t q w H)).
Defined.

(** ** [resolvePC] on every path *)

Lemma peeks_mono tid len n n' {A} (m : M A) :
  (n ≤ n')%nat → peeks tid len n m → peeks tid len n' m.
Proof.
  intros Hn Hm w. destruct (Hm w) as (? & ? & ? & ? & l & ? & ? & ?).
  split_and!; try done. exists l. split_and!; [done..|lia].
Qed.

Lemma peeks_here tid len {A} (o : outcome A) n : peeks tid len n (λ w, (w, o)).
Proof.
  intros w. split_and!; try done. exists []. rewrite app_nil_r.
  split_and!; [done..|cbn; lia].
Qed.

Lemma peeks_make tid len k n : peeks tid len n (make k).
Proof. intros w. unfold make. destruct (k <? 0); apply peeks_here. Qed.

Lemma peeks_PtracePeekData tid len addr n :
  (1 ≤ n)%nat → peeks tid len n (PtracePeekData tid addr len).
Proof.
  intros Hn w. unfold PtracePeekData. cbn.
  assert (forallb (isPeekOf tid len) [CPeek tid addr len] = true) as Hl
    by (cbn; by rewrite !Z.eqb_refl).
  destruct (readBytes (memory w) addr len); cbn; split_and!; try done.
  all: exists [CPeek tid addr len]; split_and!; [done..|cbn; lia].
Qed.

Lemma peeks_bind tid len a b n {A B} (m : M A) (k : A → M B) :
  peeks tid len a m → (∀ x, peeks tid len b (k x)) → (a + b ≤ n)%nat →
  peeks tid len n (bind m k).
Proof.
  intros Hm Hk Hn w. unfold bind.
  destruct (Hm w) as (Hm1 & He1 & Hx1 & Ha1 & l1 & Ht1 & Hl1 & Hc1).
  destruct (m w) as [w1 [x|e|]]; cbn [fst snd] in *.
  2,3: split_and!; try done; exists l1; split_and!; [done..|lia].
  destruct (Hk x w1) as (Hm2 & He2 & Hx2 & Ha2 & l2 & Ht2 & Hl2 & Hc2).
  split_and!; try congruence. exists (l1 ++ l2). split_and!.
  - by rewrite Ht2, Ht1, app_assoc.
  - by rewrite forallb_app, Hl1, Hl2.
  - rewrite length_app. lia.
Qed.

Lemma peeks_loadAddress tid len regs arg n : peeks tid len n (loadAddress regs arg).
Proof.
  unfold loadAddress. apply (peeks_bind _ _ 0 0); [apply peeks_here| |lia].
  intros pc. repeat case_match; try apply peeks_here.
  all: apply (peeks_bind _ _ 0 0); [apply peeks_here| |lia].
  all: intros idx; try case_match; apply peeks_here.
Qed.

Lemma peeks_sumArgs tid len regs args pc n : peeks tid len n (sumArgs regs args pc).
Proof.
  revert pc. induction args as [|[] args IH]; intros pc; cbn [sumArgs];
    try apply IH; [apply peeks_here|].
  apply (peeks_bind _ _ 0 n); [apply peeks_here| |lia]. intros ?. apply IH.
Qed.

(** X9. Whatever [resolvePC] ends with, a result, an error or a panic, it
    leaves the tracee's memory and the pending events as they are, and all
    it issues are peeks by the thread of [MaxInstructionLength] bytes, two
    at most. *)
Theorem resolvePC_peeks_twice
    (Decode : list byte → outcome armasm.Inst) (t : nativeThread)
    (regs : Registers) (w : World) :
  let w' := (resolvePC Decode t regs w).1 in
  memory w' = memory w
  ∧ events w' = events w
  ∧ forallb (isPeekOf (ID t) (MaxInstructionLength (arch t))) (issued w w') = true
  ∧ (length (issued w w') ≤ 2)%nat.
Proof.
  assert (peeks (ID t) (MaxInstructionLength (arch t)) 2 (resolvePC Decode t regs)) as H.
  { unfold resolvePC.
    apply (peeks_bind _ _ 0 2); [apply peeks_make| |lia]. intros _.
    apply (peeks_bind _ _ 1 1); [by apply peeks_PtracePeekData| |lia].
    intros nextInstrBytes.
    apply (peeks_bind _ _ 0 1); [apply peeks_here| |lia]. intros nextInstr.
    repeat case_match; try apply peeks_here.
    - apply (peeks_bind _ _ 0 0); [apply peeks_here| |lia]. intros ?. apply peeks_here.
    - apply (peeks_bind _ _ 0 0); [apply peeks_here| |lia]. intros ?. apply peeks_here.
    - apply (peeks_bind _ _ 0 0); [apply peeks_here| |lia]. intros ?. apply peeks_here.
    - apply (peeks_bind _ _ 0 0); [apply peeks_here| |lia]. intros ?. apply peeks_here.
    - apply (peeks_bind _ _ 0 1); [apply peeks_here| |lia]. intros ?.
      apply (peeks_bind _ _ 0 1); [apply peeks_make| |lia]. intros _.
      apply (peeks_bind _ _ 1 0); [by apply peeks_PtracePeekData| |lia]. intros ?.
      apply (peeks_bind _ _ 0 0); [apply peeks_here| |lia]. intros ?. apply peeks_here.
    - apply (peeks_bind _ _ 0 1); [apply peeks_loadAddress| |lia]. intros ?.
      apply (peeks_bind _ _ 0 1); [apply peeks_make| |lia]. intros _.
      apply (peeks_bind _ _ 1 0); [by apply peeks_PtracePeekData| |lia]. intros ?.
      apply (peeks_bind _ _ 0 0); [apply peeks_here| |lia]. intros ?. apply peeks_here.
    - apply (peeks_bind _ _ 0 0); [apply peeks_sumArgs| |lia]. intros ?. apply peeks_here.
    - apply (peeks_bind _ _ 0 0); [apply peeks_sumArgs| |lia]. intros ?. apply peeks_here. }
  intros w'. destruct (H w) as (Hm & He & _ & _ & l & Ht & Hl & Hc).
  subst w'. by rewrite (issued_app _ _ _ Ht).
Qed.









Lemma returns_bind {A B} (Q : B → Prop) (m : M A) (k : A → M B) :
  (∀ x, returns Q (k x)) → returns Q (bind m k).
Proof.
  intros Hk w w' b. unfold bind. destruct (m w) as [w1 [x| |]]; [apply Hk|done..].
Qed.

Lemma returns_ret {A} (Q : A → Prop) (a : A) : Q a → returns Q (ret a).
Proof. intros HQ w w' b [= _ <-]. done. Qed.

(** X11. A successful [resolvePC] returns the seeded fall-through address
    alone or followed by exactly one target: never more than two
    candidates. *)
Theorem resolvePC_at_most_one_target
    (Decode : list byte → outcome armasm.Inst) (t : nativeThread)
    (regs : Registers) (w w' : World) (pcs : list Z) :
  resolvePC Decode t regs w = (w', Ok pcs) →
  let seed := uint64 (PC regs + uint64 (MaxInstructionLength (arch t))) in
  (pcs = [seed] ∨ ∃ target, pcs = [seed; target]) ∧ (length pcs ≤ 2)%nat.
Proof.
  intros Hrun seed.
  assert (pcs = [seed] ∨ ∃ target, pcs = [seed; target]) as H;
    [|split; [done|]; destruct H as [->|[? ->]]; cbn; lia].
  revert w w' pcs Hrun.
  change (returns (λ pcs, pcs = [seed] ∨ ∃ target, pcs = [seed; target])
            (resolvePC Decode t regs)).
  unfold resolvePC. fold seed.
  do 3 (apply returns_bind; intros ?).
  repeat case_match.
  all: repeat first [ apply returns_ret; (by left) || (right; by eexists)
                    | apply returns_bind; intros ? ].
Qed.

Lemma resolvePC_at_most_one_target_witness :
  let regs := Sample.regsOf (Sample.regs0 0x2000) in
  let w := Sample.world (Sample.storeWord 0x1000 0xE12FFF1E ∅) (Sample.regs0 0x2000) [] in
  (resolvePC Sample.Decode Sample.t regs w).2 = Ok [0x1004; 0x2000]
  ∧ (length [0x1004; 0x2000] ≤ 2)%nat.
Proof.
  intros regs w.
  assert (H : resolvePC Sample.Decode Sample.t regs w
              = (record (CPeek 100 0x1000 4) w, Ok [0x1004; 0x2000])) by reflexivity.
  split; [by rewrite H|].
  exact (proj2 (resolvePC_at_most_one_target _ _ _ _ _ _ H)).
Defined.

(** ** Writes of the program counter *)

Lemma sumArgs_sum regs args vs pc w :
  Forall2 (λ a v, operand regs a = Ok v) args vs →
  sumArgs regs args (uint64 pc) w = (w, Ok (uint64 (pc + foldr Z.add 0 vs))).
Proof.
  intros Hvs. revert pc. induction Hvs as [|a v args vs Ha Hvs IH]; intros pc.
  - cbn. by rewrite Z.add_0_r.
  - cbn [foldr]. replace (pc + (v + foldr Z.add 0 vs)) with ((pc + v) + foldr Z.add 0 vs) by lia.
    destruct a; cbn [sumArgs operand] in *.
    + injection Ha as <-. by rewrite uint64_add_l, IH.
    + rewrite (bind_lift_Ok _ _ _ _ Ha). by rewrite uint64_add_l, IH.
    + injection Ha as <-. by rewrite Z.add_0_r, IH.
    + injection Ha as <-. by rewrite Z.add_0_r, IH.
    + injection Ha as <-. by rewrite Z.add_0_r, IH.
    + injection Ha as <-. by rewrite Z.add_0_r, IH.
Qed.

(** X12. For a MOV or an ADD with the program counter as destination the
    target is the sum, modulo 2^64, of what the three source operands
    contribute: immediates themselves, registers their values, other
    operand shapes nothing; MOV and ADD are treated alike. *)
Theorem resolvePC_mov_add
    (Decode : list byte → outcome armasm.Inst) (t : nativeThread)
    (regs : Registers) (w : World) (bs : list byte) (inst : armasm.Inst)
    (a1 a2 a3 : armasm.Arg) (v1 v2 v3 : Z) :
  0 ≤ MaxInstructionLength (arch t) →
  readBytes (memory w) (uintptr (PC regs)) (MaxInstructionLength (arch t)) = Some bs →
  Decode bs = Ok inst →
  armasm.Op_ inst = armasm.MOV ∨ armasm.Op_ inst = armasm.ADD →
  armasm.Args inst = (armasm.Reg armasm.PC, a1, a2, a3) →
  operand regs a1 = Ok v1 → operand regs a2 = Ok v2 → operand regs a3 = Ok v3 →
  resolvePC Decode t regs w
  = (record (CPeek (ID t) (uintptr (PC regs)) (MaxInstructionLength (arch t))) w,
     Ok [uint64 (PC regs + uint64 (MaxInstructionLength (arch t)));
         uint64 (v1 + v2 + v3)]).
Proof.
  intros Hlen Hbs Hdec Hop Hargs H1 H2 H3.
  unfold resolvePC.
  rewrite (bind_Ok _ _ _ _ _ (make_Ok _ w Hlen)).
  rewrite (bind_Ok _ _ _ _ _ (PtracePeekData_Ok _ _ _ _ _ Hbs)).
  rewrite (bind_lift_Ok _ _ _ _ Hdec).
  unfold armasm.Args0, armasm.ArgsFrom1. rewrite Hargs.
  assert (sumArgs regs [a1; a2; a3] 0
            (record (CPeek (ID t) (uintptr (PC regs)) (MaxInstructionLength (arch t))) w)
          = (record (CPeek (ID t) (uintptr (PC regs)) (MaxInstructionLength (arch t))) w,
             Ok (uint64 (v1 + v2 + v3)))) as Hsum.
  { change 0 with (uint64 0) at 1.
    rewrite (sumArgs_sum regs [a1; a2; a3] [v1; v2; v3]) by (repeat constructor; done).
    cbn [foldr]. do 2 f_equal. f_equal. lia. }
  destruct Hop as [-> | ->]; rewrite Z.eqb_refl.
  all: by rewrite (bind_Ok _ _ _ _ _ Hsum).
Qed.

Lemma resolvePC_mov_add_witness :
  let regs := Sample.regsOf (Sample.regs0 0) in
  let w := Sample.world (Sample.storeWord 0x1000 0xE28FF008 ∅) (Sample.regs0 0) [] in
  resolvePC More.Decode Sample.t regs w
  = (record (CPeek 100 0x1000 4) w, Ok [0x1004; 0x1008]).
Proof.
  intros regs w.
  exact (resolvePC_mov_add More.Decode Sample.t regs w
           (Sample.PutUint32 0xE28FF008)
           (armasm.mkInst armasm.ADD
              (armasm.Reg 15, armasm.Reg 15, armasm.Imm 8, armasm.OtherArg))
           (armasm.Reg 15) (armasm.Imm 8) armasm.OtherArg 0x1000 8 0
           ltac:(by vm_compute) eq_refl eq_refl (or_intror eq_refl) eq_refl
           eq_refl eq_refl eq_refl).
Defined.

Lemma uint64_sint64 x : uint64 (sint 64 x) = uint64 x.
Proof.
  unfold uint64, uint, sint. rewrite Zminus_mod_idemp_l. f_equal. lia.
Qed.

Lemma uint64_int64_add x y : uint64 (int64 x + int64 y) = uint64 (x + y).
Proof.
  unfold int64. rewrite <- uint64_add_l, uint64_sint64, uint64_add_l.
  by rewrite <- uint64_add_r, uint64_sint64, uint64_add_r.
Qed.

(** X13. For a load into the program counter with an immediate offset
    the target is the word at base + offset when the offset is applied
    before the access, and the word at the base alone when it is applied
    after it (post-indexed); the address is taken modulo 2^32. *)
Theorem resolvePC_ldr_immediate
    (Decode : list byte → outcome armasm.Inst) (t : nativeThread)
    (regs : Registers) (w : World) (bs : list byte) (inst : armasm.Inst)
    (arg : armasm.Mem) (base target : Z) :
  MaxInstructionLength (arch t) = wordSize →
  readBytes (memory w) (uintptr (PC regs)) wordSize = Some bs →
  Decode bs = Ok inst →
  armasm.Op_ inst = armasm.LDR →
  armasm.Args0 inst = armasm.Reg armasm.PC →
  armasm.Args1 inst = armasm.MemArg arg →
  armasm.Sign arg = 0 →
  Get regs (armasm.Base arg) = Ok base →
  loadWord (memory w) (uintptr (immediateAddress arg base)) = Some target →
  (resolvePC Decode t regs w).2
    = Ok [uint64 (PC regs + uint64 wordSize); target]
  ∧ issued w (resolvePC Decode t regs w).1
    = [CPeek (ID t) (uintptr (PC regs)) wordSize;
       CPeek (ID t) (uintptr (immediateAddress arg base)) wordSize].
Proof.
  intros Hlen Hbs Hdec Hop Ha0 Ha1 Hsign Hbase Hword.
  unfold loadWord in Hword.
  destruct (readBytes (memory w) (uintptr (immediateAddress arg base)) wordSize)
    as [pcMem|] eqn:Hmem; [|done].
  destruct (Uint32 pcMem) as [v| |] eqn:Hv; [|done..]. injection Hword as ->.
  set (w1 := record (CPeek (ID t) (uintptr (PC regs)) wordSize) w).
  assert (∃ pc, loadAddress regs arg w1 = (w1, Ok pc)
                ∧ uintptr pc = uintptr (immediateAddress arg base)) as (pc & Hpc & Haddr).
  { unfold loadAddress, immediateAddress. rewrite (bind_lift_Ok _ _ _ _ Hbase), Hsign.
    destruct (armasm.Mode arg); cbn [Z.eqb negb]; eexists; (split; [reflexivity|]).
    all: by rewrite ?uint64_int64_add, ?uintptr_uint64. }
  assert (Hrun : resolvePC Decode t regs w =
    (record (CPeek (ID t) (uintptr (immediateAddress arg base)) wordSize) w1,
     Ok [uint64 (PC regs + uint64 wordSize); target])).
  { unfold resolvePC. rewrite Hlen.
    rewrite (bind_Ok _ _ _ _ _ (make_Ok wordSize w ltac:(done))).
    rewrite (bind_Ok _ _ _ _ _ (PtracePeekData_Ok _ _ _ _ _ Hbs)).
    rewrite (bind_lift_Ok _ _ _ _ Hdec), Hop, Ha0, Ha1, Z.eqb_refl.
    fold w1. rewrite (bind_Ok _ _ _ _ _ Hpc).
    rewrite (bind_Ok _ _ _ _ _ (make_Ok wordSize _ ltac:(done))).
    rewrite Haddr.
    rewrite (bind_Ok _ _ _ _ _ (PtracePeekData_Ok _ _ _ w1 _ Hmem)).
    by rewrite (bind_lift_Ok _ _ _ _ Hv). }
  rewrite Hrun. split; [done|]. apply issued_app. cbn. by rewrite <- app_assoc.
Qed.

Lemma resolvePC_ldr_immediate_witness :
  let regs := Sample.regsOf (Sample.regs12 0x3000 0) in
  let m := Sample.storeWord 0x1000 0xE491F004 (Sample.storeWord 0x3000 0x2468 ∅) in
  let w := Sample.world m (Sample.regs12 0x3000 0) [] in
  (resolvePC More.Decode Sample.t regs w).2 = Ok [0x1004; 0x2468]
  ∧ issued w (resolvePC More.Decode Sample.t regs w).1
    = [CPeek 100 0x1000 4; CPeek 100 0x3000 4].
Proof.
  intros regs m w.
  exact (resolvePC_ldr_immediate More.Decode Sample.t regs w
           (Sample.PutUint32 0xE491F004)
           (armasm.mkInst armasm.LDR
              (armasm.Reg 15,
               armasm.MemArg
                 (armasm.mkMem 1 armasm.AddrPostIndex 0 0 armasm.ShiftLeft 0 4),
               armasm.OtherArg, armasm.OtherArg))
           (armasm.mkMem 1 armasm.AddrPostIndex 0 0 armasm.ShiftLeft 0 4)
           0x3000 0x2468
           eq_refl eq_refl eq_refl eq_refl eq_refl eq_refl eq_refl eq_refl eq_refl).
Defined.

Lemma land_63 x : Z.land x 63 = x mod 64.
Proof. change 63 with (Z.ones 6). by rewrite Z.land_ones. Qed.

(** X14. The rotation of the index register, with or without extend, is
    a rotation to the right within 64 bits by the count modulo 64: the
    negated uint8 count handed to [bits.RotateLeft64] rotates left by the
    complement. *)
Theorem shiftIndex_rotate (arg : armasm.Mem) (idx : Z) :
  0 ≤ idx < 2 ^ 64 →
  0 ≤ armasm.Count arg < 256 →
  armasm.Shift_ arg = armasm.RotateRight ∨ armasm.Shift_ arg = armasm.RotateRightExt →
  shiftIndex arg idx = rotateRight64 idx (armasm.Count arg mod 64).
Proof.
  intros Hidx Hc Hk. unfold shiftIndex.
  assert (negb (bool_decide (armasm.Shift_ arg = armasm.ShiftLeft)) = true) as ->.
  { rewrite bool_decide_eq_false_2; [done|]. destruct Hk as [-> | ->]; done. }
  cbn [orb].
  assert (RotateLeft64 idx (uint8 (- armasm.Count arg))
          = rotateRight64 idx (armasm.Count arg mod 64)) as Hrot.
  { unfold RotateLeft64, rotateRight64, uint8, uint32, uint.
    set (c := armasm.Count arg) in *.
    rewrite land_63.
    assert ((- c) mod 2 ^ 8 mod 2 ^ 32 mod 64 = (- c) mod 64) as ->.
    { rewrite (Z.mod_small ((- c) mod 2 ^ 8) (2 ^ 32))
        by (pose proof (Z.mod_pos_bound (- c) (2 ^ 8)); lia).
      apply Z.mod_mod_divide. exists 4. lia. }
    pose proof (Z.mod_pos_bound c 64 ltac:(lia)) as Hs.
    destruct (decide (c mod 64 = 0)) as [Hz|Hnz].
    - rewrite Z.mod_opp_l_z, Hz by lia.
      rewrite Z.shiftl_0_r, Z.shiftr_0_r, Z.sub_0_r.
      rewrite (Z.shiftr_div_pow2 idx 64), (Z.div_small idx (2 ^ 64)) by lia.
      unfold uint64, uint. rewrite Z.shiftl_mul_pow2, Z.mod_mul by lia.
      rewrite Z.lor_0_r, Z.lor_0_l. apply Z.mod_small. lia.
    - rewrite Z.mod_opp_l_nz by lia.
      by replace (64 - (64 - c mod 64)) with (c mod 64) by lia. }
  by destruct Hk as [-> | ->].
Qed.

Lemma shiftIndex_rotate_witness :
  let arg := armasm.mkMem 1 armasm.AddrOffset 1 2 armasm.RotateRight 1 0 in
  shiftIndex arg 0x11 = 0x8000000000000008
  ∧ rotateRight64 0x11 1 = 0x8000000000000008.
Proof.
  intros arg. split; [|reflexivity].
  exact (eq_trans
           (shiftIndex_rotate arg 0x11 ltac:(by vm_compute) ltac:(by vm_compute)
              (or_introl eq_refl))
           eq_refl).
Defined.

(** ** [singleStep] as a whole *)

Lemma singleStep_never_ProcessExited_witness :
  let m := Sample.storeWord 0x1000 0xE1A00000 (Sample.storeWord 0x1004 0xE1A00000 ∅) in
  let w := Sample.world m (Sample.regs0 0) [mkWait 100 (Some 0x0300) None None] in
  (prepare Sample.Decode Sample.t w).2 = Ok [0x1004]
  ∧ (singleStep Sample.Decode map_to_list Sample.t w).2
    ≠ Returned (Some (ErrProcessExited 100 3)).
Proof.
  intros m w.
  assert (H : (prepare Sample.Decode Sample.t w).2 = Ok [0x1004]) by reflexivity.
  split; [exact H|].
  exact (singleStep_never_ProcessExited Sample.Decode map_to_list Sample.t w
           [0x1004] 100 3 (λ m, reflexivity _) H).
Defined.

Lemma plant_events t nextPcs originalDatas w :
  events (plant t nextPcs originalDatas w).1 = events w
  ∧ answers (plant t nextPcs originalDatas w).1 = answers w.
Proof.
  revert originalDatas w. induction nextPcs as [|nextPc rest IH]; intros od w; [done|].
  cbn [plant]. unfold readWriteMem, bind, check, PtracePeekData, PtracePokeData, ret.
  cbn [memory record]. destruct (readBytes (memory w) _ _); [|done].
  cbn [memory record]. destruct (readBytes (memory w) _ _); [|done].
  cbv beta iota.
  match goal with |- context [plant t rest ?m ?v] => destruct (IH m v) as [-> ->] end.
  done.
Qed.

Lemma leave_blocked order t originalDatas body :
  (leave order t originalDatas body).2 = Blocked ↔ body.2 = Blocked.
Proof.
  destruct body as [w [err| |]]; cbn; [| |done].
  all: by destruct (restoreOriginal _ _ _ _).
Qed.

(** X17. A step returns or panics as soon as one of the pending events
    ends the wait: it can only wait for ever when every event is of
    another thread, a stop of the stepped thread by another signal, or the
    exit of a stepped thread that is not the process leader. *)
Theorem singleStep_not_blocked
    (Decode : list byte → outcome armasm.Inst)
    (order : gmap Z (list byte) → list (Z * list byte))
    (t : nativeThread) (w : World) :
  existsb (endsWait t) (events w) = true →
  (singleStep Decode order t w).2 ≠ Blocked.
Proof.
  intros Hev. pose proof (readOnly_prepare Decode t w) as (_ & Hev1 & _).
  revert Hev1. unfold prepare, bind, singleStep.
  destruct (Registers_ t w) as [w1 [regs| |]]; [|done..].
  destruct (resolvePC Decode t regs w1) as [w2 [pcs| |]]; [|done..].
  cbn [fst snd]. intros Hev2.
  destruct (plant_events t pcs ∅ w2) as [Hev3 _].
  destruct (plant t pcs ∅ w2) as [w3 [originalDatas [[]|e|]]]; cbn [fst snd] in *;
    [| |done].
  - unfold ptraceCont. destruct (contAnswer (answers w3));
      intros Hb%leave_blocked; [done|].
    cbn [awaitTrap snd] in Hb. apply waitLoop_blocked_iff in Hb.
    cbn [events record] in Hb. by rewrite Hev3, Hev2, Hev in Hb.
  - by intros Hb%leave_blocked.
Qed.

Lemma singleStep_not_blocked_witness :
  let m := Sample.storeWord 0x1000 0xE1A00000 (Sample.storeWord 0x1004 0xE1A00000 ∅) in
  let w := Sample.world m (Sample.regs0 0)
             [mkWait 100 (Some 0x137F) None None; Sample.trapOf 100] in
  existsb (endsWait Sample.t) (events w) = true
  ∧ (singleStep Sample.Decode map_to_list Sample.t w).2 ≠ Blocked.
Proof.
  intros m w.
  assert (H : existsb (endsWait Sample.t) (events w) = true) by reflexivity.
  split; [exact H|].
  exact (singleStep_not_blocked Sample.Decode map_to_list Sample.t w H).
Defined.

Lemma plant_trace t nextPcs originalDatas w :
  ∃ l, trace (plant t nextPcs originalDatas w).1 = trace w ++ l
       ∧ forallb (isPlant t) l = true.
Proof.
  revert originalDatas w. induction nextPcs as [|nextPc rest IH]; intros od w.
  - exists []. by rewrite app_nil_r.
  - cbn [plant]. unfold readWriteMem, bind, check, PtracePeekData, PtracePokeData, ret.
    cbn [memory record].
    set (rd := CPeek (ID t) (uintptr nextPc)
                 (Z.of_nat (length (BreakpointInstruction (arch t))))).
    set (wr := CPoke (ID t) (uintptr nextPc) (BreakpointInstruction (arch t))).
    assert (isPlant t rd = true) as Hrd by (cbn; by rewrite Z.eqb_refl).
    assert (isPlant t wr = true) as Hwr
      by (cbn; by rewrite Z.eqb_refl, bool_decide_eq_true_2).
    destruct (readBytes (memory w) _ _) as [d1|];
      [|exists [rd]; cbn [fst trace record forallb]; by rewrite Hrd].
    fold rd wr. cbn [memory record].
    destruct (readBytes (memory w) _ _) as [d2|];
      [|exists [rd; wr]; cbn [fst trace record forallb];
        rewrite Hrd, Hwr, <- app_assoc; done].
    cbv beta iota.
    match goal with |- context [plant t rest ?m ?v] => destruct (IH m v) as (l' & -> & Hl) end.
    exists (rd :: wr :: l'). cbn [trace setMemory record forallb].
    by rewrite Hrd, Hwr, Hl, <- !app_assoc.
Qed.

Lemma waitLoop_trace t q w :
  ∃ l, trace (waitLoop t q w).1 = trace w ++ l ∧ forallb isWaiting l = true.
Proof.
  revert w. induction q as [|a q IH]; intros w.
  - exists []. by rewrite app_nil_r.
  - cbn [waitLoop].
    set (v := arrive a (record (CWait (ID t)) (setEvents q w))).
    assert (trace v = trace w ++ [CWait (ID t)]) as Hv
      by (unfold v, arrive; by destruct (wmem a)).
    assert (∃ l, trace v = trace w ++ l ∧ forallb isWaiting l = true) as Hnow
      by (by exists [CWait (ID t)]).
    assert (∃ l, trace (waitLoop t q v).1 = trace w ++ l
                 ∧ forallb isWaiting l = true) as Hrec.
    { destruct (IH v) as (l & -> & Hl). exists (CWait (ID t) :: l).
      by rewrite Hv, <- app_assoc. }
    destruct (werr a); [done|].
    destruct (_ && (wpid a =? pid t)).
    { exists [CWait (ID t); CPostExit]. unfold postExit. cbn [fst trace record setExited].
      by rewrite Hv, <- app_assoc. }
    destruct (wpid a =? ID t); [|done].
    destruct (wstatus a) as [status|]; [|done].
    by destruct (StopSignal status =? SIGTRAP).
Qed.

Lemma restoreOriginal_trace t entries err w :
  ∃ l, trace (restoreOriginal t entries err w).1 = trace w ++ l
       ∧ forallb isPoke l = true.
Proof.
  revert err w. induction entries as [|[addr d] rest IH]; intros err w.
  - exists []. by rewrite app_nil_r.
  - cbn [restoreOriginal]. unfold PtracePokeData. cbn [memory record].
    destruct (readBytes (memory w) addr _).
    all: match goal with |- context [restoreOriginal _ _ ?e ?v] =>
           destruct (IH e v) as (rest' & -> & Hl) end.
    all: exists (CPoke (ID t) addr d :: rest'); cbn [trace setMemory record forallb isPoke].
    all: by rewrite <- app_assoc.
Qed.

(** X18. The requests of a step come in the order of its phases: reads
    of the prepare phase; then the peeks and breakpoint pokes of the
    planting loop; then at most one resume; then waits, with the notice of
    an exit; then the pokes that write the saved bytes back.  There is no
    wait without the resume, and no write-back while the step waits for
    ever. *)
Theorem singleStep_phases
    (Decode : list byte → outcome armasm.Inst)
    (order : gmap Z (list byte) → list (Z * list byte))
    (t : nativeThread) (w : World) :
  ∃ reads plants resume waits restores,
    issued w (singleStep Decode order t w).1
      = reads ++ plants ++ resume ++ waits ++ restores
    ∧ forallb isRead reads = true
    ∧ forallb (isPlant t) plants = true
    ∧ (resume = [] ∨ resume = [CCont (ID t) 0])
    ∧ forallb isWaiting waits = true
    ∧ forallb isPoke restores = true
    ∧ (resume = [] → waits = [])
    ∧ ((singleStep Decode order t w).2 = Blocked → restores = []).
Proof.
  pose proof (readOnly_prepare Decode t w) as (_ & _ & _ & _ & l0 & Ht0 & Hl0).
  revert Ht0. unfold prepare, bind, singleStep.
  destruct (Registers_ t w) as [w1 [regs| |]].
  2,3: cbn [fst snd]; intros Ht; exists l0, [], [], [], [];
       rewrite !app_nil_r, (issued_app _ _ _ Ht); split_and!; auto; done.
  destruct (resolvePC Decode t regs w1) as [w2 [pcs| |]].
  2,3: cbn [fst snd]; intros Ht; exists l0, [], [], [], [];
       rewrite !app_nil_r, (issued_app _ _ _ Ht); split_and!; auto; done.
  cbn [fst snd]. intros Ht0.
  destruct (plant_trace t pcs ∅ w2) as (l1 & Ht1 & Hl1).
  destruct (plant t pcs ∅ w2) as [w3 [originalDatas r]]. cbn [fst snd] in Ht1.
  assert (∀ body lc l2,
            trace body.1 = trace w ++ l0 ++ l1 ++ lc ++ l2 →
            (lc = [] ∨ lc = [CCont (ID t) 0]) → forallb isWaiting l2 = true →
            (lc = [] → l2 = []) →
            ∃ reads plants resume waits restores,
              issued w (leave order t originalDatas body).1
                = reads ++ plants ++ resume ++ waits ++ restores
              ∧ forallb isRead reads = true
              ∧ forallb (isPlant t) plants = true
              ∧ (resume = [] ∨ resume = [CCont (ID t) 0])
              ∧ forallb isWaiting waits = true
              ∧ forallb isPoke restores = true
              ∧ (resume = [] → waits = [])
              ∧ ((leave order t originalDatas body).2 = Blocked → restores = []))
    as Hleave.
  { intros [w4 [err| |]] lc l2 Ht Hlc Hl2 Hno; cbn [fst snd leave] in *.
    1,2: match goal with |- context [restoreOriginal ?th ?l ?e ?v] =>
           destruct (restoreOriginal_trace th l e v) as (l3 & Ht3 & Hl3);
           destruct (restoreOriginal th l e v) as [w5 err5] end.
    1,2: cbn [fst snd] in *; exists l0, l1, lc, l2, l3.
    1,2: rewrite (issued_app w w5 (l0 ++ l1 ++ lc ++ l2 ++ l3))
           by (rewrite Ht3, Ht, <- !app_assoc; done).
    1,2: split_and!; auto; done.
    exists l0, l1, lc, l2, [].
    rewrite (issued_app w w4 (l0 ++ l1 ++ lc ++ l2 ++ []))
      by (by rewrite app_nil_r).
    split_and!; auto. }
  destruct r as [[]|e|].
  - unfold ptraceCont. destruct (contAnswer (answers w3)) as [e|]; cbn [awaitTrap].
    + apply (Hleave _ [CCont (ID t) 0] []); cbn [fst trace record]; auto.
      by rewrite Ht1, Ht0, <- !app_assoc.
    + destruct (waitLoop_trace t (events (record (CCont (ID t) 0) w3))
                  (record (CCont (ID t) 0) w3)) as (l2 & Ht2 & Hl2).
      apply (Hleave _ [CCont (ID t) 0] l2); auto; [|done].
      rewrite Ht2. cbn [trace record]. rewrite Ht1, Ht0, <- !app_assoc. done.
  - cbn [awaitTrap]. apply (Hleave _ [] []); cbn [fst]; auto.
    cbn [app]. by rewrite Ht1, Ht0, <- !app_assoc, app_nil_r.
  - exists l0, l1, [], [], []. cbn [fst snd].
    rewrite (issued_app w w3 (l0 ++ l1 ++ [] ++ [] ++ []))
      by (cbn [app]; by rewrite Ht1, Ht0, <- !app_assoc, app_nil_r).
    split_and!; auto; done.
Qed.

(** ** The planting loop *)

Lemma uintptr_shift a d : 0 < d < 2 ^ 32 → uintptr (a + d) ≠ uintptr a.
Proof.
  intros Hd Heq. unfold uintptr, uint in Heq.
  assert (d mod 2 ^ 32 = 0) as H0.
  { replace d with ((a + d) - a) by lia. rewrite Zminus_mod, Heq, Z.sub_diag. done. }
  rewrite Z.mod_small in H0; lia.
Qed.

Lemma readBytesN_writeBytes m a data :
  Z.of_nat (length data) ≤ 2 ^ 32 →
  readBytesN (writeBytes m a data) a (length data) = Some data.
Proof.
  revert m a. induction data as [|b rest IH]; intros m a Hlen; [done|].
  cbn [length writeBytes readBytesN] in *.
  rewrite writeBytes_other, lookup_insert_eq.
  - rewrite IH; [done|lia].
  - unfold span. intros (j & Hj & Hin)%list_elem_of_fmap.
    apply elem_of_seq in Hin.
    apply (uintptr_shift a (1 + Z.of_nat j)); [lia|]. rewrite Hj. f_equal. lia.
Qed.

Lemma plant_planted t nextPcs originalDatas w :
  let n := length (BreakpointInstruction (arch t)) in
  Z.of_nat n ≤ 2 ^ 32 →
  apart n (uintptr <$> nextPcs) →
  (plant t nextPcs originalDatas w).2.2 = Ok () →
  (∀ pc, pc ∈ nextPcs →
     readBytesN (memory (plant t nextPcs originalDatas w).1) (uintptr pc) n
     = Some (BreakpointInstruction (arch t)))
  ∧ (∀ k, (∀ pc, pc ∈ nextPcs → k ∉ span (uintptr pc) n) →
       memory (plant t nextPcs originalDatas w).1 !! k = memory w !! k).
Proof.
  intros n Hn. revert originalDatas w.
  induction nextPcs as [|nextPc rest IH]; intros od w Hapart.
  - intros _. split; [by intros pc Hpc%elem_of_nil|done].
  - cbn [plant]. unfold readWriteMem, bind, check, PtracePeekData, PtracePokeData, ret.
    cbn [memory record]. destruct (readBytes (memory w) _ _) as [d1|]; [|done].
    cbn [memory record]. destruct (readBytes (memory w) _ _) as [d2|]; [|done].
    cbv beta iota. cbn [fmap list_fmap] in Hapart. destruct Hapart as [Hfirst Hapart].
    match goal with |- context [plant t rest ?m ?v] =>
      specialize (IH m v Hapart); destruct (plant t rest m v) as [w' [od' r]] end.
    cbn [fst snd memory setMemory record] in *. intros Hr.
    destruct (IH Hr) as [Hrest Hother]. split.
    + intros pc [->|Hpc]%elem_of_cons; [|by apply Hrest].
      rewrite (readBytesN_ext _ (writeBytes (memory w) (uintptr nextPc)
                                   (BreakpointInstruction (arch t)))).
      * by apply readBytesN_writeBytes.
      * intros k Hk. apply Hother. intros pc Hpc Hk'.
        rewrite Forall_forall in Hfirst.
        specialize (Hfirst (uintptr pc) ltac:(by apply list_elem_of_fmap_2)).
        rewrite Forall_forall in Hfirst. by apply (Hfirst k Hk).
    + intros k Hk. rewrite Hother.
      * apply writeBytes_other. apply Hk. left.
      * intros pc Hpc. apply Hk. by right.
Qed.

Lemma plant_dom t nextPcs originalDatas w :
  dom (plant t nextPcs originalDatas w).2.1
  ⊆ dom originalDatas ∪ (list_to_set (uintptr <$> nextPcs) : gset Z).
Proof.
  revert originalDatas w. induction nextPcs as [|nextPc rest IH]; intros od v.
  - cbn. apply union_subseteq_l.
  - cbn [plant]. unfold readWriteMem, bind, check, PtracePeekData, PtracePokeData, ret.
    cbn [memory record].
    destruct (readBytes (memory v) _ _) as [d1|]; [|apply union_subseteq_l].
    cbn [memory record].
    destruct (readBytes (memory v) _ _) as [d2|]; [|apply union_subseteq_l].
    cbv beta iota.
    match goal with |- context [plant t rest ?m ?u] => specialize (IH m u) end.
    rewrite dom_insert_L in IH. cbn [fmap list_fmap list_to_set].
    intros k Hk. apply IH in Hk. revert Hk. rewrite !elem_of_union. tauto.
Qed.

(** X19. When the planting loop gets through candidates that have no
    byte in common, each of them holds the whole breakpoint encoding
    afterwards, that is, when the tracee is resumed; every byte outside
    their spans is as before. *)
Theorem plant_all_hold_breakpoint (t : nativeThread) (nextPcs : list Z) (w : World) :
  let n := length (BreakpointInstruction (arch t)) in
  let w' := (plant t nextPcs ∅ w).1 in
  Z.of_nat n ≤ 2 ^ 32 →
  apart n (uintptr <$> nextPcs) →
  (plant t nextPcs ∅ w).2.2 = Ok () →
  (∀ pc, pc ∈ nextPcs →
     readBytes (memory w') (uintptr pc) (Z.of_nat n)
     = Some (BreakpointInstruction (arch t)))
  ∧ (∀ k, (∀ pc, pc ∈ nextPcs → k ∉ span (uintptr pc) n) →
       memory w' !! k = memory w !! k)
  ∧ dom (plant t nextPcs ∅ w).2.1 ⊆ list_to_set (uintptr <$> nextPcs).
Proof.
  intros n w' Hn Hapart Hok.
  destruct (plant_planted t nextPcs ∅ w Hn Hapart Hok) as [Hall Hother].
  split_and!; [|done|].
  - intros pc Hpc. rewrite readBytes_of_nat. by apply Hall.
  - pose proof (plant_dom t nextPcs ∅ w) as H. rewrite dom_empty_L in H.
    intros k Hk. apply H in Hk. apply elem_of_union in Hk as [Hk|Hk]; [|done].
    by apply elem_of_empty in Hk.
Qed.

Lemma plant_all_hold_breakpoint_witness :
  let m := Sample.storeWord 0x1004 0xE1A00000 (Sample.storeWord 0x2000 0xE1A00000 ∅) in
  let w := Sample.world m (Sample.regs0 0) [] in
  (plant Sample.t [0x1004; 0x2000] ∅ w).2.2 = Ok ()
  ∧ readBytes (memory (plant Sample.t [0x1004; 0x2000] ∅ w).1) 0x2000 4
    = Some Sample.breakpoint.
Proof.
  intros m w.
  assert (H : (plant Sample.t [0x1004; 0x2000] ∅ w).2.2 = Ok ()) by reflexivity.
  split; [exact H|].
  refine (proj1 (plant_all_hold_breakpoint Sample.t [0x1004; 0x2000] w _ _ H) 0x2000 _).
  - by vm_compute.
  - cbn [apart fmap list_fmap]. apply (bool_decide_unpack _). by vm_compute.
  - right. left.
Defined.

(** ** The deferred function *)

(** X20. The deferred function writes back every saved entry, one poke
    for each in the order of the iteration, and goes on after a write
    that fails; with nothing saved it issues nothing and leaves [err] as it
    is. *)
Theorem restoreOriginal_writes_all (t : nativeThread) (entries : list (Z * list byte))
    (err : option error) (w : World) :
  issued w (restoreOriginal t entries err w).1
    = (λ entry, CPoke (ID t) entry.1 entry.2) <$> entries
  ∧ (entries = [] → (restoreOriginal t entries err w).2 = err)
  ∧ events (restoreOriginal t entries err w).1 = events w.
Proof.
  assert (trace (restoreOriginal t entries err w).1
            = trace w ++ ((λ entry, CPoke (ID t) entry.1 entry.2) <$> entries)
          ∧ events (restoreOriginal t entries err w).1 = events w) as [Ht He].
  { revert err w. induction entries as [|[addr d] rest IH]; intros err w.
    - cbn. by rewrite app_nil_r.
    - cbn [restoreOriginal]. unfold PtracePokeData. cbn [memory record].
      destruct (readBytes (memory w) addr _).
      all: match goal with |- context [restoreOriginal _ _ ?e ?v] =>
             destruct (IH e v) as [Ht He]; rewrite Ht, He end.
      all: cbn [trace events setMemory record fmap list_fmap fst snd].
      all: by rewrite <- app_assoc. }
  split_and!; [by apply issued_app| |done]. by intros ->.
Qed.
